(** * dependency-tree: graph engine, resolution cascade and directive scanner

    A shallow embedding of the TypeScript sources

    - [index.ts]: [DependencyTree] (query layer, [resolveAndCollect],
      [gather]), [DirectedGraph], [Stack];
    - [src/processors/javascript.ts]: [JavascriptFileProcessor];
    - [src/processors/directive.ts]: [DirectiveProcessor] and
      [TSDirectiveProcessor];
    - [src/processors/css.ts]: [CssFileProcessor];
    - [src/processors/typescript.ts]: [TypeScriptFileProcessor];
    - [src/processors/feature.ts]: [getReferencedStorybookMapping] of
      [FeatureFileProcessor].

    JavaScript [Map] and [Set] iterate in insertion order, and the order in
    which [walkDfs] pushes successors is the iteration order of a [Set].
    Both collections are therefore modelled as insertion-ordered lists. *)

From Stdlib Require Import Ascii ZArith Lia.
From stdpp Require Import base list strings relations pretty.
From Equations Require Import Equations.

(** ** JavaScript collections *)

(** [Set<T>]: the list of its elements in insertion order. *)
Module JSSet.
Section Ops.
Context {T : Type} `{EqDecision T}.

Definition t := list T.

Definition empty : list T := [].

Definition has (x : T) (s : list T) : bool := bool_decide (x ∈ s).

(** [s.add(x)]: appends [x] unless it is already present. *)
Definition add (x : T) (s : list T) : list T :=
  if has x s then s else s ++ [x].

(** [s.delete(x)]. *)
Definition delete (x : T) (s : list T) : list T :=
  filter (λ y, y ≠ x) s.

(** [new Set(iterable)]. *)
Definition of_list (l : list T) : list T :=
  foldl (λ s x, add x s) empty l.
End Ops.
End JSSet.

(** [Map<K, V>]: the list of its entries in insertion order. *)
Module JSMap.
Section Ops.
Context {K V : Type} `{EqDecision K}.

Definition empty : list (K * V) := [].

Fixpoint get (k : K) (m : list (K * V)) : option V :=
  match m with
  | [] => None
  | (k', v) :: rest => if decide (k = k') then Some v else get k rest
  end.

Definition has (k : K) (m : list (K * V)) : bool :=
  match get k m with Some _ => true | None => false end.

(** [m.set(k, v)]: overwrites in place when the key exists, appends a
    new entry otherwise. *)
Fixpoint set (k : K) (v : V) (m : list (K * V)) : list (K * V) :=
  match m with
  | [] => [(k, v)]
  | (k', v') :: rest =>
      if decide (k = k') then (k, v) :: rest else (k', v') :: set k v rest
  end.

(** Mutation of the value object stored under [k] (the map keeps a
    reference to it, so the change is visible through the map). *)
Fixpoint modify (k : K) (f : V → V) (m : list (K * V)) : list (K * V) :=
  match m with
  | [] => []
  | (k', v') :: rest =>
      if decide (k = k') then (k', f v') :: rest
      else (k', v') :: modify k f rest
  end.

Definition keys (m : list (K * V)) : list K := m.*1.
End Ops.
End JSMap.

(** ** [Stack<T>] *)

(** The source keeps the stack in an array and pushes and pops at its end;
    here the head of the list is the top of the stack. *)
Module Stack.
Section Ops.
Context {T : Type}.

Definition empty : list T := [].

Definition add (val : T) (stack : list T) : list T := val :: stack.

Definition addMany (vals : list T) (stack : list T) : list T :=
  foldl (λ st val, add val st) stack vals.

(** [next] throws on an empty stack: [None]. *)
Definition next (stack : list T) : option (T * list T) :=
  match stack with
  | [] => None
  | val :: rest => Some (val, rest)
  end.

Definition isEmpty (stack : list T) : bool :=
  match stack with [] => true | _ => false end.
End Ops.
End Stack.

(** *** Facts about the collections *)

Section CollectionFacts.
Context {T : Type} `{EqDecision T}.

Lemma has_true (x : T) (s : list T) : JSSet.has x s = true ↔ x ∈ s.
Proof. unfold JSSet.has. apply bool_decide_eq_true. Qed.

Lemma has_false (x : T) (s : list T) : JSSet.has x s = false ↔ x ∉ s.
Proof. unfold JSSet.has. apply bool_decide_eq_false. Qed.

Lemma add_new (x : T) (s : list T) :
  JSSet.has x s = false → JSSet.add x s = s ++ [x].
Proof. unfold JSSet.add. by intros ->. Qed.

Lemma has_add_same (x : T) (s : list T) :
  JSSet.has x (JSSet.add x s) = true.
Proof.
  unfold JSSet.add. destruct (JSSet.has x s) eqn:E; [done|].
  unfold JSSet.has. apply bool_decide_eq_true. set_solver.
Qed.

Lemma has_add_mono (x y : T) (s : list T) :
  JSSet.has y s = true → JSSet.has y (JSSet.add x s) = true.
Proof.
  unfold JSSet.add. destruct (JSSet.has x s); [done|].
  unfold JSSet.has. rewrite !bool_decide_eq_true. set_solver.
Qed.

Lemma elem_of_add (x y : T) (s : list T) :
  y ∈ JSSet.add x s ↔ y = x ∨ y ∈ s.
Proof.
  unfold JSSet.add. destruct (JSSet.has x s) eqn:E.
  - apply has_true in E. split; [auto|]. by intros [->|].
  - rewrite elem_of_app, list_elem_of_singleton. tauto.
Qed.

Lemma NoDup_add (x : T) (s : list T) : NoDup s → NoDup (JSSet.add x s).
Proof.
  intros Hs. unfold JSSet.add. destruct (JSSet.has x s) eqn:E; [done|].
  apply has_false in E. apply NoDup_app. split_and!; [done| |].
  - intros y Hy ->%list_elem_of_singleton. done.
  - apply NoDup_singleton.
Qed.

Lemma of_list_singleton (x : T) : JSSet.of_list [x] = [x].
Proof.
  unfold JSSet.of_list, JSSet.empty. simpl. rewrite add_new; [done|].
  apply has_false. intros Hx. by inversion Hx.
Qed.

Lemma elem_of_addMany (x : T) (vals st : list T) :
  x ∈ Stack.addMany vals st ↔ x ∈ vals ∨ x ∈ st.
Proof.
  revert st. induction vals as [|v vals IH]; intros st; simpl.
  - split; [auto|]. intros [H0|]; [by inversion H0|done].
  - rewrite IH. unfold Stack.add. rewrite !elem_of_cons. tauto.
Qed.

Lemma length_addMany (vals st : list T) :
  length (Stack.addMany vals st) = length vals + length st.
Proof.
  revert st. induction vals as [|v vals IH]; intros st; simpl; [done|].
  rewrite IH. simpl. lia.
Qed.

Lemma get_Some_key {V} (k : T) (m : list (T * V)) v :
  JSMap.get k m = Some v → k ∈ JSMap.keys m.
Proof.
  induction m as [|[k' v'] m IH]; simpl; [done|].
  destruct (decide (k = k')) as [->|]; intros; [left|right; auto].
Qed.

Lemma get_None_keys {V} (k : T) (m : list (T * V)) :
  JSMap.get k m = None → k ∉ JSMap.keys m.
Proof.
  unfold JSMap.keys. induction m as [|[k0 v0] m IH]; simpl.
  - intros _ Hk. by inversion Hk.
  - destruct (decide (k = k0)); [done|]. intros Hn [->|Hk]%elem_of_cons;
      [done|by apply IH].
Qed.

Lemma get_set (k k' : T) (v : list T) m :
  JSMap.get k (JSMap.set k' v m)
  = if decide (k = k') then Some v else JSMap.get k m.
Proof.
  induction m as [|[k0 v0] m IH]; simpl.
  - by destruct (decide (k = k')).
  - destruct (decide (k' = k0)) as [->|Hne]; simpl.
    + by destruct (decide (k = k0)).
    + destruct (decide (k = k0)) as [->|]; [|done].
      by destruct (decide (k0 = k')) as [->|].
Qed.

Lemma get_modify (k k' : T) (f : list T → list T) m :
  JSMap.get k (JSMap.modify k' f m)
  = if decide (k = k') then f <$> JSMap.get k m else JSMap.get k m.
Proof.
  induction m as [|[k0 v0] m IH]; simpl.
  - by destruct (decide (k = k')).
  - destruct (decide (k' = k0)) as [->|Hne]; simpl.
    + by destruct (decide (k = k0)).
    + destruct (decide (k = k0)) as [->|]; [|done].
      by destruct (decide (k0 = k')) as [->|].
Qed.

Lemma keys_modify (k : T) (f : list T → list T) m :
  JSMap.keys (JSMap.modify k f m) = JSMap.keys m.
Proof.
  unfold JSMap.keys. induction m as [|[k0 v0] m IH]; simpl; [done|].
  destruct (decide (k = k0)); simpl; [done|]. f_equal. apply IH.
Qed.

Lemma keys_set_new (k : T) (v : list T) m :
  JSMap.get k m = None → JSMap.keys (JSMap.set k v m) = JSMap.keys m ++ [k].
Proof.
  unfold JSMap.keys. induction m as [|[k0 v0] m IH]; simpl; [done|].
  destruct (decide (k = k0)); [done|]. intros Hn. simpl. f_equal.
  by apply IH.
Qed.

End CollectionFacts.

(** ** [DirectedGraph<T>] *)

Module DirectedGraph.
Section Graph.
Context {T : Type} `{EqDecision T}.

Record t := mk { edges : list (T * list T) }.

(** One endpoint of one entry handled by the inner loop of
    [transpose]. *)
Definition transpose_endpoint (node : T)
    (invertedEdges : list (T * list T)) (endpointNode : T)
    : list (T * list T) :=
  if JSMap.has endpointNode invertedEdges
  then JSMap.modify endpointNode (JSSet.add node) invertedEdges
  else JSMap.set endpointNode (JSSet.of_list [node]) invertedEdges.

Definition transpose_entry (invertedEdges : list (T * list T))
    (entry : T * list T) : list (T * list T) :=
  foldl (transpose_endpoint entry.1) invertedEdges entry.2.

Definition transpose (g : t) : t :=
  mk (foldl transpose_entry JSMap.empty (edges g)).

(** Successors pushed when [node] is expanded: nothing when the node
    has no entry. *)
Definition expand (g : t) (node : T) (toVisit : list T) : list T :=
  match JSMap.get node (edges g) with
  | Some outNodes => Stack.addMany outNodes toVisit
  | None => toVisit
  end.

(** Termination measure of the [while] loop of [walkDfs]: the stack
    height plus, for every entry whose key is still unvisited, one more
    than the number of successors an expansion of that key pushes. *)
Definition out_degree (g : t) (node : T) : nat :=
  match JSMap.get node (edges g) with
  | Some outNodes => length outNodes
  | None => 0
  end.

Fixpoint pending (g : t) (visited : list T) (keys : list T) : nat :=
  match keys with
  | [] => 0
  | k :: rest =>
      (if JSSet.has k visited then 0 else S (out_degree g k))
      + pending g visited rest
  end.

Definition weight (g : t) (toVisit visited : list T) : nat :=
  length toVisit + pending g visited (JSMap.keys (edges g)).

Lemma pending_add_le g x visited keys :
  pending g (JSSet.add x visited) keys ≤ pending g visited keys.
Proof.
  induction keys as [|k keys IH]; simpl; [lia|].
  destruct (JSSet.has k visited) eqn:E.
  - rewrite (has_add_mono _ _ _ E). lia.
  - destruct (JSSet.has k (JSSet.add x visited)); lia.
Qed.

Lemma pending_add_key g x visited keys :
  x ∈ keys → JSSet.has x visited = false →
  S (out_degree g x) + pending g (JSSet.add x visited) keys
  ≤ pending g visited keys.
Proof.
  intros Hin Hx. revert Hin.
  induction keys as [|k keys IH]; intros Hin; [by inversion Hin|].
  simpl. destruct (decide (k = x)) as [->|Hne].
  - rewrite Hx, has_add_same.
    pose proof (pending_add_le g x visited keys). lia.
  - apply elem_of_cons in Hin as [->|Hin']; [done|].
    specialize (IH Hin').
    destruct (JSSet.has k visited) eqn:E.
    + rewrite (has_add_mono _ _ _ E). lia.
    + destruct (JSSet.has k (JSSet.add x visited)); lia.
Qed.

Lemma weight_expand g node rest visited :
  JSSet.has node visited = false →
  weight g (expand g node rest) (JSSet.add node visited)
  < weight g (node :: rest) visited.
Proof.
  intros Hv. unfold weight, expand. simpl.
  destruct (JSMap.get node (edges g)) as [outs|] eqn:E.
  - pose proof (pending_add_key g node visited _
                  (get_Some_key _ _ _ E) Hv) as Hp.
    unfold out_degree in Hp. rewrite E in Hp.
    rewrite length_addMany. lia.
  - pose proof (pending_add_le g node visited (JSMap.keys (edges g))).
    lia.
Qed.

(** The [while (!toVisit.isEmpty())] loop of [walkDfs].  The result is
    the sequence of yielded nodes together with the [visited] set as
    the loop leaves it (the set is shared with the caller). *)
Equations? walkLoop (g : t) (toVisit : list T) (visited : list T)
    : list T * list T by wf (weight g toVisit visited) lt :=
  walkLoop g [] visited := ([], visited);
  walkLoop g (node :: rest) visited
      with sumbool_of_bool (JSSet.has node visited) => {
    | left _ := walkLoop g rest visited;
    | right Hnew :=
        let r := walkLoop g (expand g node rest) (JSSet.add node visited) in
        (node :: r.1, r.2) }.
Proof. by apply weight_expand. Qed.

Definition walkDfs (g : t) (entrypoint : T) (visited : list T)
    : list T * list T :=
  walkLoop g (Stack.add entrypoint Stack.empty) visited.

(** [manyWalkDfs] threads one [visited] set through the walks. *)
Fixpoint manyWalk (g : t) (entrypoints : list T) (visited : list T)
    : list T * list T :=
  match entrypoints with
  | [] => ([], visited)
  | entrypoint :: rest =>
      let r1 := walkDfs g entrypoint visited in
      let r2 := manyWalk g rest r1.2 in
      (r1.1 ++ r2.1, r2.2)
  end.

Definition manyWalkDfs (g : t) (entrypoints : list T) : list T :=
  (manyWalk g entrypoints JSSet.empty).1.

(** *** Edge relation and reachability *)

(** [b] is a successor of [a] as [edges.get(a)] reports it. *)
Definition successor (m : list (T * list T)) (a b : T) : Prop :=
  ∃ outNodes, JSMap.get a m = Some outNodes ∧ b ∈ outNodes.

(** [b] occurs in the value of some entry of [m] with key [a], as the
    iteration over the entries in [transpose] sees it. *)
Definition entry_edge (m : list (T * list T)) (a b : T) : Prop :=
  ∃ outNodes, (a, outNodes) ∈ m ∧ b ∈ outNodes.

Definition edge (g : t) : relation T := successor (edges g).

Definition reachable (g : t) : relation T := rtc (edge g).

Definition reachable_from (g : t) (entrypoints : list T) (x : T) : Prop :=
  ∃ e, e ∈ entrypoints ∧ reachable g e x.

(** A JavaScript [Map] holds each key once. *)
Definition unique_keys (m : list (T * list T)) : Prop :=
  NoDup (JSMap.keys m).

Definition closed (g : t) (nodes : list T) : Prop :=
  ∀ a b, a ∈ nodes → edge g a b → b ∈ nodes.

Definition frontier_inv (g : t) (toVisit visited : list T) : Prop :=
  ∀ a b, a ∈ visited → edge g a b → b ∈ visited ∨ b ∈ toVisit.

(** What one run of the loop establishes. *)
Record walk_ok (g : t) (toVisit visited : list T)
    (r : list T * list T) : Prop := {
  wk_visited : r.2 = visited ++ r.1;
  wk_nodup : NoDup r.1;
  wk_fresh : ∀ y, y ∈ r.1 → y ∉ visited;
  wk_sound : ∀ y, y ∈ r.1 → ∃ s, s ∈ toVisit ∧ reachable g s y;
  wk_stack : ∀ s, s ∈ toVisit → s ∈ r.2;
  wk_closed : frontier_inv g toVisit visited → closed g r.2 }.

End Graph.
Arguments t : clear implicits.
End DirectedGraph.

(** ** [DependencyTree]: query layer *)

Abbreviation Path := string (only parsing).
Abbreviation FileToDeps := (list (string * list string)) (only parsing).

Module DependencyTree.
Import DirectedGraph.

Definition findRelatedFiles (graph : DirectedGraph.t Path)
    (files : list Path) : list Path :=
  let visited :=
    foldl (λ visited referencingFile, JSSet.add referencingFile visited)
          JSSet.empty (manyWalkDfs graph files) in
  foldl (λ visited file, JSSet.delete file visited) visited files.

Definition getDependencies (fileToDeps : FileToDeps) (files : list Path)
    : list Path :=
  let graph := DirectedGraph.mk fileToDeps in
  findRelatedFiles graph files.

Definition getReferences (fileToDeps : FileToDeps) (files : list Path)
    : list Path :=
  let graph := transpose (DirectedGraph.mk fileToDeps) in
  findRelatedFiles graph files.
End DependencyTree.

(** ** [DependencyTree]: resolution cascade *)

(** What [resolver.resolveSync] does on one call: it throws, or it returns
    a path, or it returns nothing ([undefined]). *)
Inductive ResolveOutcome :=
| Throws (message : string)
| Returns (resolved : option Path).

(** [string[] | string]. *)
Inductive Reference :=
| Single (referencedModule : string)
| Several (referencedModules : list string).

Inductive LogEvent :=
| InfoFound (total : nat)
| InfoScanning (file : Path)
| DebugBuiltin (referencedModule : string)
| DebugTrying (referencedModule : string) (file : Path)
| ErrorMessage (message : string)
| ErrorCouldntFind (referencedModule : string).

(** The state a run works on besides the sets it returns: the missing map
    shared by all processors, and the observable effects (calls of the
    resolver, log lines, files read). *)
Record World := mkWorld {
  missing : FileToDeps;
  resolverCalls : list (Path * string);
  logged : list LogEvent;
  filesRead : list Path }.

Definition log (e : LogEvent) (w : World) : World :=
  mkWorld (missing w) (resolverCalls w) (logged w ++ [e]) (filesRead w).

Definition called (dir : Path) (request : string) (w : World) : World :=
  mkWorld (missing w) (resolverCalls w ++ [(dir, request)]) (logged w)
          (filesRead w).

Definition with_missing (m : FileToDeps) (w : World) : World :=
  mkWorld m (resolverCalls w) (logged w) (filesRead w).

Definition did_read (file : Path) (w : World) : World :=
  mkWorld (missing w) (resolverCalls w) (logged w) (filesRead w ++ [file]).

(** JavaScript truthiness of a string: every string but the empty one. *)
Definition truthy (s : string) : bool := bool_decide (s ≠ "").

Module Cascade.
Section Resolve.
(** The set built from the package [builtin-modules]. *)
Variable builtinModules : list string.
(** [path.dirname]. *)
Variable dirname : Path → Path.
(** The injected resolver. *)
Variable resolveSync : Path → string → ResolveOutcome.

(** The tail of [resolveAndCollect], after the [try] block. *)
Definition recordMissing (file : Path) (referencedModule : string)
    (w : World) : World :=
  if truthy referencedModule then
    let w := log (ErrorCouldntFind referencedModule) w in
    let missingFileDeps :=
      default JSSet.empty (JSMap.get file (missing w)) in
    with_missing
      (JSMap.set file (JSSet.add referencedModule missingFileDeps)
                 (missing w)) w
  else w.

(** [resolveAndCollect] on a single string. *)
Definition resolveOne (file : Path) (referencedModule : string)
    (st : list Path * World) : list Path * World :=
  let '(importedModules, w) := st in
  if JSSet.has referencedModule builtinModules then
    (importedModules, log (DebugBuiltin referencedModule) w)
  else
    let w := log (DebugTrying referencedModule file) w in
    let w := called (dirname file) referencedModule w in
    match resolveSync (dirname file) referencedModule with
    | Returns (Some resolved) =>
        if truthy resolved
        then (JSSet.add resolved importedModules, w)
        else (importedModules, recordMissing file referencedModule w)
    | Returns None =>
        (importedModules, recordMissing file referencedModule w)
    | Throws message =>
        (importedModules,
         recordMissing file referencedModule (log (ErrorMessage message) w))
    end.

Definition resolveAndCollect (file : Path) (referencedModule : Reference)
    (st : list Path * World) : list Path * World :=
  match referencedModule with
  | Several ms => foldl (λ st m, resolveOne file m st) st ms
  | Single m => resolveOne file m st
  end.

(** The resolver gives no usable path for the request. *)
Definition resolution_fails (o : ResolveOutcome) : Prop :=
  match o with
  | Throws _ => True
  | Returns None => True
  | Returns (Some resolved) => truthy resolved = false
  end.
End Resolve.
End Cascade.

(** ** [DependencyTree]: the driving loop *)

(** The errors that end a run. *)
Inductive Fatal :=
| NoProcessorMatches (file : Path)
| ReadFailed (file : Path)
| ProcessorFailed (message : string).

Inductive Result (A : Type) :=
| Ok (value : A)
| Raised (error : Fatal).
Arguments Ok {A} value.
Arguments Raised {A} error.

(** The [FileProcessor] interface ([matches] is the method [match]).
    [process] receives the missing map inside the world and returns the
    set it resolves to, or rejects. *)
Record FileProcessor := mkFileProcessor {
  matches : Path → bool;
  supportedFileTypes : list string;
  process : Path → string → list Path → World → Result (list Path * World) }.

Module Gather.
Section Run.
(** Constructor arguments and the processors added so far. *)
Variable rootDirs : list Path.
Variable ignoreGlobs : list string.
Variable fileProcessors : list FileProcessor.
(** [fg.sync(pattern, { cwd, ignore, absolute: true })]. *)
Variable fg_sync : string → Path → list string → list Path.
(** [fs.readFileSync(file, "utf8")]; [None] when it throws. *)
Variable readFileSync : Path → option string.

Definition getFiles : list Path :=
  let supportedFileTypes :=
    JSSet.of_list
      (foldl (λ acc processor, acc ++ supportedFileTypes processor)
             [] fileProcessors) in
  foldl (λ acc rootDir,
           acc ++ fg_sync ("**/*.{" +:+ String.concat "," supportedFileTypes
                           +:+ "}")
                          rootDir ignoreGlobs)
        [] rootDirs.

(** The loop over [this.fileProcessors] in [getImportedFiles]; the state
    is [allImported], [matched] and the world. *)
Fixpoint runProcessors (file : Path) (contents : string) (files : list Path)
    (processors : list FileProcessor)
    (allImported : list Path) (matched : bool) (w : World)
    : Result (list Path * bool * World) :=
  match processors with
  | [] => Ok (allImported, matched, w)
  | fileProcessor :: rest =>
      if matches fileProcessor file then
        match process fileProcessor file contents files w with
        | Raised e => Raised e
        | Ok (importedFiles, w') =>
            runProcessors file contents files rest
              (foldl (λ acc imported, JSSet.add imported acc)
                     allImported importedFiles)
              true w'
        end
      else runProcessors file contents files rest allImported matched w
  end.

Definition getImportedFiles (file : Path) (w : World) (files : list Path)
    : Result (list Path * World) :=
  match readFileSync file with
  | None => Raised (ReadFailed file)
  | Some contents =>
      match runProcessors file contents files fileProcessors
              JSSet.empty false (did_read file w) with
      | Raised e => Raised e
      | Ok (allImported, matched, w') =>
          if matched then Ok (allImported, w')
          else Raised (NoProcessorMatches file)
      end
  end.

(** The [for (const file of files)] loop of [gather]. *)
Fixpoint gatherLoop (files remaining : list Path)
    (fileToDeps : FileToDeps) (w : World) : Result (FileToDeps * World) :=
  match remaining with
  | [] => Ok (fileToDeps, w)
  | file :: rest =>
      match getImportedFiles file (log (InfoScanning file) w) files with
      | Raised e => Raised e
      | Ok (importedFiles, w') =>
          gatherLoop files rest (JSMap.set file importedFiles fileToDeps) w'
      end
  end.

(** [gather()].  The returned world holds the [missing] map of the
    result; the first component is [resolved]. *)
Definition gather : Result (FileToDeps * World) :=
  let files := getFiles in
  let w := log (InfoFound (length files)) (mkWorld JSMap.empty [] [] []) in
  gatherLoop files files JSMap.empty w.
End Run.
End Gather.

(** [JavascriptFileProcessor] of [src/processors/javascript.ts].  The
    parser behind [extractJsImports] throws on a file it cannot parse:
    [None]. *)
Definition JavascriptFileProcessor
    (extname : Path → string)
    (extractJsImports : string → option (list string))
    (transformReference : string → Path → Reference)
    (resolveAndCollect :
       Path → Reference → list Path * World → list Path * World)
    : FileProcessor :=
  {| matches file :=
       let ext := extname file in
       bool_decide (ext = ".js") || bool_decide (ext = ".cjs")
       || bool_decide (ext = ".mjs");
     supportedFileTypes := ["js"; "cjs"; "mjs"];
     process file contents files w :=
       match extractJsImports contents with
       | None => Raised (ProcessorFailed "SyntaxError")
       | Some imports =>
           let referencedFiles := JSSet.of_list imports in
           Ok (foldl (λ st referencedFile,
                        resolveAndCollect file
                          (transformReference referencedFile file) st)
                     (JSSet.empty, w) referencedFiles)
       end |}.

(** The options object the tests pass to [gather]. *)
Record GatherOptions := { batchSize : Z }.

(** A call [dependencyTree.gather(options)]: [gather] declares no
    parameter, and JavaScript drops the arguments a function does not
    declare. *)
Definition gather_call (rootDirs : list Path) (ignoreGlobs : list string)
    (fileProcessors : list FileProcessor)
    (fg_sync : string → Path → list string → list Path)
    (readFileSync : Path → option string)
    (options : option GatherOptions) : Result (FileToDeps * World) :=
  Gather.gather rootDirs ignoreGlobs fileProcessors fg_sync readFileSync.

(** ** [DirectiveProcessor] *)

(** *** JavaScript string operations used by the processor

    A character is a code unit; the embedding uses the 8-bit characters of
    [string]. *)

Definition LF : ascii := "010"%char.
Definition TAB : ascii := "009"%char.

(** [s.slice(n)] for [0 <= n]. *)
Fixpoint drop_str (n : nat) (s : string) : string :=
  match n, s with
  | 0, _ => s
  | S n', String _ rest => drop_str n' rest
  | S _, EmptyString => EmptyString
  end.

Fixpoint take_str (n : nat) (s : string) : string :=
  match n, s with
  | 0, _ => EmptyString
  | S n', String c rest => String c (take_str n' rest)
  | S _, EmptyString => EmptyString
  end.

(** [s.slice(0, end)]: a negative [end] counts from the end of [s]. *)
Definition slice_to (s : string) (end_ : Z) : string :=
  let len := Z.of_nat (String.length s) in
  let to := if (end_ <? 0)%Z then Z.max (len + end_) 0 else Z.min end_ len in
  take_str (Z.to_nat to) s.

(** [s.indexOf(sub)]. *)
Definition indexOf (s sub : string) : Z :=
  match String.index 0 sub s with
  | Some i => Z.of_nat i
  | None => (-1)%Z
  end.

(** [s.split('\n')]. *)
Fixpoint split_lines (s : string) : list string :=
  match s with
  | EmptyString => [EmptyString]
  | String c rest =>
      if Ascii.eqb c LF then EmptyString :: split_lines rest
      else match split_lines rest with
           | [] => [String c EmptyString]
           | line :: lines => String c line :: lines
           end
  end.

(** [' '.repeat(n)]. *)
Fixpoint spaces (n : nat) : string :=
  match n with
  | 0 => EmptyString
  | S n' => String " "%char (spaces n')
  end.


Module Directive.

Definition ELEMENT_NAME : string := "dependency-tree".

Definition allowedAttributes : list string := ["dependsOn"].

(** The [attributes] property of the element xml2js returns: an object
    with the processed attribute names as keys, in the order of
    [Object.keys], or [undefined] for an element without attributes. *)
Inductive Attributes :=
| Undefined
| Object (entries : list (string * string)).

(** A validated directive is the attributes object itself. *)
Definition Directive := list (string * string).

Definition dependsOn (d : Directive) : option string :=
  JSMap.get "dependsOn" d.

(** The [for (const key of Object.keys(obj))] loop of [assertDirective]:
    the first key that is not allowed. *)
Fixpoint firstUnknownKey (keys : list string) : option string :=
  match keys with
  | [] => None
  | key :: rest =>
      if JSSet.has key allowedAttributes then firstUnknownKey rest
      else Some key
  end.

(** [assertDirective]: the message of the [TypeError] it throws, or the
    object it returns. *)
Definition assertDirective (obj : Attributes) : string + Directive :=
  match obj with
  | Undefined => inl "Unexpected type: undefined"
  | Object entries =>
      match firstUnknownKey (JSMap.keys entries) with
      | Some key => inl ("Unknown attribute: '" +:+ key +:+ "'")
      | None => inr entries
      end
  end.

Definition getNextSymbolPosition (content : string) : nat * nat :=
  let m := split_lines content in
  (length m,
   match last m with Some l => String.length l | None => 0 end + 1).

Inductive ErrorKind := SyntaxError | ParseError | ValidationError.

(** [DirectiveProcessorError] and its three subclasses. *)
Record DirectiveProcessorError := mkError {
  kind : ErrorKind;
  message : string;
  content : string;
  fileName : Path;
  lineNumber : nat;
  columnNumber : nat }.

(** The text handed to [super(...)] by the constructor of
    [DirectiveProcessorError]. *)
Definition errorText (e : DirectiveProcessorError) : string :=
  let position :=
    String.concat ":"
      [fileName e; pretty (lineNumber e); pretty (columnNumber e)] in
  let sourceLine :=
    default "undefined" (split_lines (content e) !! (lineNumber e - 1)) in
  let indent := spaces (columnNumber e - 1) in
  message e +:+ String LF (String LF "")
  +:+ pretty (lineNumber e) +:+ String TAB sourceLine +:+ String LF ""
  +:+ String TAB indent +:+ "^" +:+ String LF ""
  +:+ String TAB indent +:+ "└── definition starts at " +:+ position
  +:+ String LF (String LF "")
  +:+ "Please make sure you have followed the guidelines of how to define the dependency-tree directive."
  +:+ String LF ""
  +:+ "See the online documentation at dependency-tree/docs/directive.md."
  +:+ String LF ""
  +:+ "Do you have any questions? Reach out to #fe-infra on slack."
  +:+ String LF "".

Inductive Thrown :=
| DirectiveError (e : DirectiveProcessorError)
| XmlFormatChanged (xmlMessage : string).

(** The result of [reNext.exec]: the whole match and the two named
    groups. *)
Record RegExpExecArray := mkMatch {
  matched : string;
  body : option string;
  syntaxError : option string }.

(** [if (group)]: the group took part in the match and is not empty. *)
Definition present (group : option string) : option string :=
  match group with
  | Some s => if truthy s then Some s else None
  | None => None
  end.

Inductive XmlResult :=
| XmlRejected (xmlMessage : string)
| XmlParsed (attributes : Attributes).

Record ScanState := mkScan {
  lastIndex : nat;
  directives : list Directive }.

Inductive StepResult :=
| Done
| Next (st : ScanState)
| Throw (e : Thrown).

Inductive Outcome :=
| Finished (directives : list Directive)
| Failed (e : Thrown).

Definition inspect {A : Type} (a : A) : {b : A | a = b} := exist _ a eq_refl.

Section Processor.
(** [this.reNext.exec(s)], the regular expression built from the options
    of the concrete processor. *)
Variable reNext_exec : string → option RegExpExecArray.
(** A match of [reNext] is anchored at the start of its input and every
    alternative consumes at least one character. *)
Hypothesis reNext_consumes : ∀ s m,
  reNext_exec s = Some m →
  matched m ≠ "" ∧ String.prefix (matched m) s = true.
(** [body.replace(this.reMultilineDirectiveDelimiter, '')]. *)
Variable removeDelimiters : string → string.
(** [xml2js(singleLineBody, this.xmlParserOptions)], reduced to the
    attributes of the element; the attribute names have gone through
    [camelcase]. *)
Variable xml2js : string → XmlResult.
(** [reXML2JSReport.test] and [.replace(reXML2JSReport, '')]. *)
Variable reXML2JSReport_test : string → bool.
Variable reXML2JSReport_remove : string → string.

(** [errorPayload], with [lastIndex] as it stands when the closure is
    called. *)
Definition errorPosition (content : string) (lastIndex : nat)
    (fullMatch groupMatch : string) : nat * nat :=
  getNextSymbolPosition
    (slice_to content
       (Z.of_nat lastIndex - Z.of_nat (String.length fullMatch)
        + indexOf fullMatch groupMatch)%Z).

Definition raise (kind : ErrorKind) (message content : string)
    (filePath : Path) (position : nat * nat) : Thrown :=
  DirectiveError (mkError kind message content filePath position.1 position.2).

(** One iteration of the [while] loop of [getDirectives]. *)
Definition step (content : string) (filePath : Path) (st : ScanState)
    : StepResult :=
  match reNext_exec (drop_str (lastIndex st) content) with
  | None => Done
  | Some m =>
      let lastIndex := lastIndex st + String.length (matched m) in
      match present (body m) with
      | Some body =>
          let singleLineBody := removeDelimiters body in
          match xml2js singleLineBody with
          | XmlRejected xmlMessage =>
              if reXML2JSReport_test xmlMessage then
                Throw (raise ParseError (reXML2JSReport_remove xmlMessage)
                         content filePath
                         (errorPosition content lastIndex (matched m) body))
              else Throw (XmlFormatChanged xmlMessage)
          | XmlParsed attributes =>
              match assertDirective attributes with
              | inl typeError =>
                  Throw (raise ValidationError typeError content filePath
                           (errorPosition content lastIndex (matched m) body))
              | inr directive =>
                  Next (mkScan lastIndex (directives st ++ [directive]))
              end
          end
      | None =>
          match present (syntaxError m) with
          | Some syntaxError =>
              Throw (raise SyntaxError "" content filePath
                       (errorPosition content lastIndex (matched m)
                          syntaxError))
          | None => Next (mkScan lastIndex (directives st))
          end
      end
  end.

Lemma length_drop_str n s :
  String.length (drop_str n s) = String.length s - n.
Proof.
  revert s. induction n as [|n IH]; intros [|c s]; simpl; try done; lia.
Qed.

Lemma prefix_length p s :
  String.prefix p s = true → String.length p ≤ String.length s.
Proof.
  revert s. induction p as [|c p IH]; intros [|d s]; simpl; try done.
  - lia.
  - destruct (ascii_dec c d); [|done]. intros Hp. apply IH in Hp. lia.
Qed.

Lemma step_advances content filePath st st' :
  step content filePath st = Next st' →
  lastIndex st < lastIndex st' ≤ String.length content.
Proof.
  unfold step.
  destruct (reNext_exec (drop_str (lastIndex st) content)) as [m|] eqn:Hm;
    [|done].
  destruct (reNext_consumes _ _ Hm) as [Hne Hpre].
  apply prefix_length in Hpre. rewrite length_drop_str in Hpre.
  assert (0 < String.length (matched m)).
  { destruct (matched m); [done|simpl; lia]. }
  assert (lastIndex st < lastIndex st + String.length (matched m)
          ≤ String.length content) by lia.
  destruct (present (body m)).
  - destruct (xml2js _); [by destruct (reXML2JSReport_test _)|].
    destruct (assertDirective _); [done|]. by intros [= <-].
  - destruct (present (syntaxError m)); [done|]. by intros [= <-].
Qed.

(** The [while] loop of [getDirectives]. *)
Equations? scan (content : string) (filePath : Path) (st : ScanState)
    : Outcome by wf (String.length content - lastIndex st) lt :=
  scan content filePath st with inspect (step content filePath st) => {
    | exist _ Done _ := Finished (directives st);
    | exist _ (Throw e) _ := Failed e;
    | exist _ (Next st') Hstep := scan content filePath st' }.
Proof. apply step_advances in Hstep. lia. Qed.

Definition getDirectives (content : string) (filePath : Path) : Outcome :=
  scan content filePath (mkScan 0 []).

(** [process]: the directives with a [depends-on] value are handed to
    [resolveAndCollect]. *)
Definition process
    (resolveAndCollect :
       Path → Reference → list Path * World → list Path * World)
    (transformReference : string → Path → Reference)
    (file : Path) (contents : string) (w : World)
    : Thrown + list Path * World :=
  match getDirectives contents file with
  | Failed e => inl e
  | Finished directives =>
      inr (foldl (λ acc directive,
                    match present (dependsOn directive) with
                    | Some target =>
                        resolveAndCollect file
                          (transformReference target file) acc
                    | None => acc
                    end)
                 (JSSet.empty, w) directives)
  end.
End Processor.
End Directive.

(** ** [TSDirectiveProcessor]

    The concrete processor for [ts] and [tsx] files: the start token is
    three slashes and the continuation token is two slashes with an
    optional third.  With these options the constructor of
    [DirectiveProcessor] builds [reNext], anchored at the start of its
    input, from three alternatives followed by line feeds or the end of the
    input:

    - [A]: any characters of the line, the start token, blanks, then as
      group [body] the text [<dependency-tree], one blank, characters other
      than [>] and the closing [/>]; then the rest of the line;
    - [B]: any characters of the line, then as group [syntaxError] the
      start token, blanks and [<dependency-tree]; then one blank and the
      rest of the line;
    - the rest: one or more characters of the line.

    [reMultilineDirectiveDelimiter] is a line feed, blanks and the
    continuation token.  The functions below are these two expressions,
    matched the way a backtracking engine matches them: alternatives from
    left to right, every quantifier greedy. *)

Definition CR : ascii := "013"%char.

(** The characters [.] does not match. *)
Definition isLineTerminator (c : ascii) : bool :=
  Ascii.eqb c LF || Ascii.eqb c CR.

Definition isLineCharacter (c : ascii) : bool := negb (isLineTerminator c).

Definition isLineFeed (c : ascii) : bool := Ascii.eqb c LF.

(** The characters [\s] matches, among the 8-bit ones. *)
Definition isSpace (c : ascii) : bool :=
  match nat_of_ascii c with
  | 9 | 10 | 11 | 12 | 13 | 32 | 160 => true
  | _ => false
  end.

(** Length of the longest prefix of [s] made of characters in [p]: what a
    greedy [p*] consumes first. *)
Fixpoint span (p : ascii → bool) (s : string) : nat :=
  match s with
  | EmptyString => 0
  | String c rest => if p c then S (span p rest) else 0
  end.

Module TSDirectiveProcessor.
Import Directive.

Definition fileTypes : list string := ["ts"; "tsx"].

(** The end of a unit, from position [from]: the rest of the line, then
    the line feeds after it or the end of the input.  A line that ends in
    a carriage return has no match: giving back characters of the line
    stops before a character that is neither a line feed nor the end. *)
Definition unitEnd (s : string) (from : nat) : option nat :=
  let eol := from + span isLineCharacter (drop_str from s) in
  match drop_str eol s with
  | EmptyString => Some eol
  | String c _ as tail =>
      if isLineFeed c then Some (eol + span isLineFeed tail) else None
  end.

(** Blanks and the group [body] at the start of [t]: the number of blanks
    skipped and the length of the body.  The characters other than [>] run
    to the first [>], so the body ends there and the character before it
    has to be the slash. *)
Definition bodyAt (t : string) : option (nat * nat) :=
  let blanks := span isSpace t in
  let t1 := drop_str blanks t in
  if String.prefix ("<" +:+ ELEMENT_NAME) t1 then
    match drop_str 16 t1 with
    | String c t3 =>
        if isSpace c then
          match String.index 0 ">" t3 with
          | Some (S g) =>
              match String.get g t3 with
              | Some slash =>
                  if Ascii.eqb slash "/" then Some (blanks, 16 + 1 + S g + 1)
                  else None
              | None => None
              end
          | _ => None
          end
        else None
    | EmptyString => None
    end
  else None.

(** Alternative [A] with the start token at position [p]. *)
Definition bodyUnit (s : string) (p : nat) : option RegExpExecArray :=
  if String.prefix "///" (drop_str p s) then
    match bodyAt (drop_str (p + 3) s) with
    | Some (blanks, len) =>
        match unitEnd s (p + 3 + blanks + len) with
        | Some n =>
            Some (mkMatch (take_str n s)
                          (Some (String.substring (p + 3 + blanks) len s))
                          None)
        | None => None
        end
    | None => None
    end
  else None.

(** Alternative [B] with the start token at position [p]. *)
Definition syntaxErrorUnit (s : string) (p : nat)
    : option RegExpExecArray :=
  if String.prefix "///" (drop_str p s) then
    let t := drop_str (p + 3) s in
    let blanks := span isSpace t in
    if String.prefix ("<" +:+ ELEMENT_NAME) (drop_str blanks t) then
      match drop_str (p + 3 + blanks + 16) s with
      | String c _ =>
          if isSpace c then
            match unitEnd s (p + 3 + blanks + 16 + 1) with
            | Some n =>
                Some (mkMatch (take_str n s) None
                              (Some (String.substring p (3 + blanks + 16) s)))
            | None => None
            end
          else None
      | EmptyString => None
      end
    else None
  else None.

(** The third alternative. *)
Definition restUnit (s : string) : option RegExpExecArray :=
  match span isLineCharacter s with
  | 0 => None
  | S _ =>
      match unitEnd s 0 with
      | Some n => Some (mkMatch (take_str n s) None None)
      | None => None
      end
  end.

(** The leading greedy run of line characters gives back one character at
    a time: the positions are tried from [p] down to 0. *)
Fixpoint backtrack {A : Type} (attempt : nat → option A) (p : nat)
    : option A :=
  match attempt p with
  | Some r => Some r
  | None =>
      match p with
      | 0 => None
      | S p' => backtrack attempt p'
      end
  end.

Definition reNext_exec (s : string) : option RegExpExecArray :=
  let eol := span isLineCharacter s in
  match backtrack (bodyUnit s) eol with
  | Some m => Some m
  | None =>
      match backtrack (syntaxErrorUnit s) eol with
      | Some m => Some m
      | None => restUnit s
      end
  end.

(** Blanks and the continuation token at the start of [t], the text after
    a line feed: the number of characters they take. *)
Definition delimiterAt (t : string) : option nat :=
  let blanks := span isSpace t in
  let t1 := drop_str blanks t in
  if String.prefix "///" t1 then Some (blanks + 3)
  else if String.prefix "//" t1 then Some (blanks + 2)
  else None.

(** [body.replace(this.reMultilineDirectiveDelimiter, '')]; [skip] counts
    the characters of the current match still to be dropped. *)
Fixpoint removeDelimitersFrom (skip : nat) (s : string) : string :=
  match s with
  | EmptyString => EmptyString
  | String c rest =>
      match skip with
      | S k => removeDelimitersFrom k rest
      | 0 =>
          if isLineFeed c then
            match delimiterAt rest with
            | Some n => removeDelimitersFrom n rest
            | None => String c (removeDelimitersFrom 0 rest)
            end
          else String c (removeDelimitersFrom 0 rest)
      end
  end.

Definition removeDelimiters (body : string) : string :=
  removeDelimitersFrom 0 body.

Lemma prefix_take_str n s : String.prefix (take_str n s) s = true.
Proof.
  revert s. induction n as [|n IH]; intros [|c s]; simpl; try done.
  destruct (ascii_dec c c); [apply IH|done].
Qed.

Lemma unitEnd_ge s from n : unitEnd s from = Some n →
  from + span isLineCharacter (drop_str from s) ≤ n.
Proof.
  unfold unitEnd.
  destruct (drop_str _ s) as [|c tail]; [intros [= <-]; lia|].
  destruct (isLineFeed c); [|done]. intros [= <-]. lia.
Qed.

Lemma prefix_drop_nonempty p q s :
  p ≠ "" → String.prefix p (drop_str q s) = true → s ≠ "".
Proof. intros Hp Hpre ->. destruct q, p; simpl in *; done. Qed.

Lemma backtrack_Some {A} (attempt : nat → option A) p r :
  backtrack attempt p = Some r → ∃ q, attempt q = Some r.
Proof.
  induction p as [|p IH]; simpl.
  - destruct (attempt 0) eqn:E; [|done]. intros [= <-]. eauto.
  - destruct (attempt (S p)) eqn:E; [intros [= <-]; eauto|apply IH].
Qed.

Lemma take_str_consumes n s m :
  n ≠ 0 → s ≠ "" → matched m = take_str n s →
  matched m ≠ "" ∧ String.prefix (matched m) s = true.
Proof.
  intros Hn Hs ->. split; [|apply prefix_take_str].
  destruct n; [done|]. by destruct s.
Qed.

Lemma reNext_consumes s m :
  reNext_exec s = Some m →
  matched m ≠ "" ∧ String.prefix (matched m) s = true.
Proof.
  unfold reNext_exec.
  destruct (backtrack (bodyUnit s) _) as [m1|] eqn:HA.
  { intros [= <-]. apply backtrack_Some in HA as (p & HA).
    unfold bodyUnit in HA.
    destruct (String.prefix "///" (drop_str p s)) eqn:Hp; [|done].
    destruct (bodyAt _) as [[blanks len]|]; [|done].
    destruct (unitEnd s _) as [n|] eqn:Hn; [|done].
    injection HA as <-. apply unitEnd_ge in Hn.
    apply (take_str_consumes n); [lia| |done].
    eapply (prefix_drop_nonempty "///"); [by intros [=]|exact Hp]. }
  destruct (backtrack (syntaxErrorUnit s) _) as [m2|] eqn:HB.
  { intros [= <-]. apply backtrack_Some in HB as (p & HB).
    unfold syntaxErrorUnit in HB. cbv zeta in HB.
    destruct (String.prefix "///" (drop_str p s)) eqn:Hp; [|done].
    repeat case_match; try done.
    match goal with Hn : unitEnd s _ = Some _ |- _ =>
      apply unitEnd_ge in Hn end.
    injection HB as <-.
    eapply take_str_consumes; [| |done]; [lia|].
    eapply (prefix_drop_nonempty "///"); [by intros [=]|exact Hp]. }
  unfold restUnit. destruct (span isLineCharacter s) as [|k] eqn:Hk; [done|].
  destruct (unitEnd s 0) as [n|] eqn:Hn; [|done].
  intros [= <-]. apply unitEnd_ge in Hn. simpl in Hn.
  apply (take_str_consumes n); [lia| |done].
  intros ->. done.
Qed.

(** [getDirectives] of the processor; the XML parser and the two
    operations of [reXML2JSReport] stay parameters. *)
Definition getDirectives (xml2js : string → XmlResult)
    (reXML2JSReport_test : string → bool)
    (reXML2JSReport_remove : string → string)
    : string → Path → Outcome :=
  Directive.getDirectives reNext_exec reNext_consumes removeDelimiters
    xml2js reXML2JSReport_test reXML2JSReport_remove.
End TSDirectiveProcessor.

(** * Properties *)

(** ** Facts about [DirectedGraph] *)

Section GraphFacts.
Import DirectedGraph.
Context {T : Type} `{EqDecision T}.
Implicit Types (g : DirectedGraph.t T) (m inv : list (T * list T)).
Implicit Types (toVisit visited entrypoints nodes st outNodes : list T).
Implicit Types (a b x node ep entrypoint : T).

Lemma elem_of_expand g node st x :
  x ∈ expand g node st ↔ edge g node x ∨ x ∈ st.
Proof.
  unfold expand, edge, successor.
  destruct (JSMap.get node (edges g)) as [outs|] eqn:E.
  - rewrite elem_of_addMany. split.
    + intros [?|?]; [left; eauto|by right].
    + intros [(o & Ho & ?)|?]; [left; congruence|by right].
  - split; [by right|]. by intros [(o & Ho & ?)|?].
Qed.

Lemma walkLoop_ok g toVisit visited :
  walk_ok g toVisit visited (walkLoop g toVisit visited).
Proof.
  funelim (walkLoop g toVisit visited).
  - (* empty stack *)
    split; simpl.
    + by rewrite app_nil_r.
    + constructor.
    + intros y Hy. by inversion Hy.
    + intros y Hy. by inversion Hy.
    + intros s Hs. by inversion Hs.
    + intros Hinv a b Ha Hab. destruct (Hinv a b Ha Hab) as [|Hb]; [done|].
      by inversion Hb.
  - (* popped node already visited *)
    match goal with IH : walk_ok _ _ _ _ |- _ => destruct IH end.
    match goal with E : JSSet.has _ _ = true |- _ =>
      pose proof (proj1 (has_true _ _) E) as Hin end.
    split; try done.
    + intros y Hy. destruct (wk_sound0 y Hy) as (s & Hs & Hr).
      exists s. split; [by right|done].
    + intros s [->|Hs]%elem_of_cons; [|by auto].
      rewrite wk_visited0. apply elem_of_app. by left.
    + intros Hinv. apply wk_closed0. intros a b Ha Hab.
      destruct (Hinv a b Ha Hab) as [|[->|]%elem_of_cons]; auto.
  - (* popped node is new: yield, mark, expand *)
    match goal with IH : walk_ok _ _ _ _ |- _ => destruct IH end.
    match goal with E : JSSet.has _ _ = false |- _ =>
      pose proof (proj1 (has_false _ _) E) as Hfresh;
      rewrite (add_new _ _ E) in * end.
    set (r := walkLoop g (expand g node rest) (visited ++ [node])) in *.
    split; simpl.
    + rewrite wk_visited0, <- app_assoc. done.
    + constructor; [|done]. intros Hn. apply (wk_fresh0 _ Hn).
      apply elem_of_app. right. by left.
    + intros y [->|Hy]%elem_of_cons; [done|].
      intros Hv. apply (wk_fresh0 _ Hy). apply elem_of_app. by left.
    + intros y [->|Hy]%elem_of_cons.
      * exists node. split; [by left|apply rtc_refl].
      * destruct (wk_sound0 y Hy) as (s & Hs & Hr).
        apply elem_of_expand in Hs as [Hs|Hs].
        -- exists node. split; [by left|]. by eapply rtc_l.
        -- exists s. split; [by right|done].
    + intros s [->|Hs]%elem_of_cons.
      * rewrite wk_visited0. rewrite !elem_of_app.
        left. right. by left.
      * apply wk_stack0, elem_of_expand. by right.
    + intros Hinv. apply wk_closed0. intros a b Ha Hab.
      apply elem_of_app in Ha as [Ha|Ha];
        [|apply list_elem_of_singleton in Ha as ->].
      * destruct (Hinv a b Ha Hab) as [|[->|]%elem_of_cons].
        -- left. apply elem_of_app. by left.
        -- left. apply elem_of_app. right. by left.
        -- right. apply elem_of_expand. by right.
      * right. apply elem_of_expand. by left.
Qed.

Lemma walkDfs_ok g entrypoint visited :
  walk_ok g [entrypoint] visited (walkDfs g entrypoint visited).
Proof. apply walkLoop_ok. Qed.

Lemma manyWalk_ok g entrypoints visited :
  let r := manyWalk g entrypoints visited in
  r.2 = visited ++ r.1
  ∧ NoDup r.1
  ∧ (∀ y, y ∈ r.1 → y ∉ visited)
  ∧ (∀ y, y ∈ r.1 → reachable_from g entrypoints y)
  ∧ (∀ e, e ∈ entrypoints → e ∈ r.2)
  ∧ (closed g visited → closed g r.2).
Proof.
  revert visited.
  induction entrypoints as [|e es IH]; intros visited; simpl.
  - split_and!;
      [by rewrite app_nil_r | constructor | intros y Hy; by inversion Hy
      | intros y Hy; by inversion Hy | intros y Hy; by inversion Hy
      | done].
  - destruct (walkDfs_ok g e visited) as [H1 H2 H3 H4 H5 H6].
    set (r1 := walkDfs g e visited) in *.
    destruct (IH r1.2) as (I1 & I2 & I3 & I4 & I5 & I6).
    set (r2 := manyWalk g es r1.2) in *.
    split_and!.
    + rewrite I1, H1, <- app_assoc. done.
    + apply NoDup_app. split_and!; [done| |done].
      intros y Hy Hy'. apply (I3 _ Hy'). rewrite H1.
      apply elem_of_app. by right.
    + intros y [Hy|Hy]%elem_of_app; [by apply H3|].
      intros Hv. apply (I3 _ Hy). rewrite H1. apply elem_of_app. by left.
    + intros y [Hy|Hy]%elem_of_app.
      * destruct (H4 _ Hy) as (s & Hs & Hr).
        apply list_elem_of_singleton in Hs as ->.
        exists e. split; [by left|done].
      * destruct (I4 _ Hy) as (s & Hs & Hr). exists s.
        split; [by right|done].
    + intros x [->|Hx]%elem_of_cons; [|by apply I5].
      rewrite I1. apply elem_of_app. left. apply H5. by left.
    + intros Hc. apply I6, H6. intros a b Ha Hab. left. by eapply Hc.
Qed.

Lemma closed_reachable g nodes a b :
  closed g nodes → a ∈ nodes → reachable g a b → b ∈ nodes.
Proof.
  intros Hc Ha Hr. induction Hr as [|x y z Hxy _ IH]; [done|].
  apply IH. by eapply Hc.
Qed.

Lemma manyWalkDfs_NoDup g entrypoints :
  NoDup (manyWalkDfs g entrypoints).
Proof.
  unfold manyWalkDfs.
  by destruct (manyWalk_ok g entrypoints JSSet.empty) as (_ & ? & _).
Qed.

Lemma elem_of_manyWalkDfs g entrypoints x :
  x ∈ manyWalkDfs g entrypoints ↔ reachable_from g entrypoints x.
Proof.
  unfold manyWalkDfs.
  destruct (manyWalk_ok g entrypoints JSSet.empty)
    as (H1 & _ & _ & H4 & H5 & H6).
  simpl in H1. split; [by apply H4|].
  intros (e & He & Hr). rewrite <- H1.
  eapply closed_reachable; [|by apply H5|done].
  apply H6. intros a b Ha. by inversion Ha.
Qed.

Lemma successor_transpose_endpoint node inv ep a b :
  successor (transpose_endpoint node inv ep) b a
  ↔ successor inv b a ∨ (b = ep ∧ a = node).
Proof.
  unfold transpose_endpoint, successor, JSMap.has.
  destruct (JSMap.get ep inv) as [old|] eqn:E.
  - split.
    + intros (outs & Hg & Ha). rewrite get_modify in Hg.
      destruct (decide (b = ep)) as [->|]; [|left; eauto].
      rewrite E in Hg. simpl in Hg. injection Hg as <-.
      apply elem_of_add in Ha as [->|Ha]; [by right|left; eauto].
    + intros [(outs & Hg & Ha)|[-> ->]].
      * rewrite get_modify. destruct (decide (b = ep)) as [->|]; [|eauto].
        rewrite E in Hg. injection Hg as <-. rewrite E. simpl.
        eexists. split; [done|]. apply elem_of_add. by right.
      * rewrite get_modify, decide_True, E by done. simpl.
        eexists. split; [done|]. apply elem_of_add. by left.
  - rewrite of_list_singleton. split.
    + intros (outs & Hg & Ha). rewrite get_set in Hg.
      destruct (decide (b = ep)) as [->|]; [|left; eauto].
      injection Hg as <-. apply list_elem_of_singleton in Ha as ->.
      by right.
    + intros [(outs & Hg & Ha)|[-> ->]].
      * rewrite get_set. destruct (decide (b = ep)) as [->|]; [|eauto].
        congruence.
      * rewrite get_set, decide_True by done.
        eexists. split; [done|]. by left.
Qed.

Lemma successor_transpose_entry inv node outNodes a b :
  successor (transpose_entry inv (node, outNodes)) b a
  ↔ successor inv b a ∨ (a = node ∧ b ∈ outNodes).
Proof.
  unfold transpose_entry. simpl. revert inv.
  induction outNodes as [|ep outs IH]; intros inv; simpl.
  - split; [auto|]. intros [?|[_ Hb]]; [done|by inversion Hb].
  - rewrite IH, successor_transpose_endpoint, elem_of_cons. tauto.
Qed.

Lemma successor_transpose_entries m inv a b :
  successor (foldl transpose_entry inv m) b a
  ↔ successor inv b a ∨ entry_edge m a b.
Proof.
  revert inv. induction m as [|[node outs] m IH]; intros inv; simpl.
  - split; [auto|]. intros [?|(o & Ho & _)]; [done|by inversion Ho].
  - rewrite IH, successor_transpose_entry. unfold entry_edge. split.
    + intros [[?|[-> ?]]|(o & Ho & ?)]; [by left| |].
      * right. exists outs. split; [by left|done].
      * right. exists o. split; [by right|done].
    + intros [?|(o & [Ho|Ho]%elem_of_cons & ?)]; [by left; left| |].
      * injection Ho as -> ->. left. by right.
      * right. eauto.
Qed.

Lemma edge_transpose g a b :
  edge (transpose g) b a ↔ entry_edge (edges g) a b.
Proof.
  unfold edge, transpose. simpl. rewrite successor_transpose_entries.
  split; [|by right]. intros [(o & Ho & _)|?]; [|done]. by inversion Ho.
Qed.

Lemma successor_entry_edge m a b : successor m a b → entry_edge m a b.
Proof.
  intros (outs & Hg & Hb). exists outs. split; [|done].
  induction m as [|[k0 v0] m IH]; simpl in *; [done|].
  destruct (decide (a = k0)) as [->|].
  - injection Hg as ->. by left.
  - right. by apply IH.
Qed.

Lemma entry_edge_successor m a b :
  unique_keys m → entry_edge m a b → successor m a b.
Proof.
  unfold unique_keys, JSMap.keys.
  intros Hu (outs & Hin & Hb). exists outs. split; [|done].
  induction m as [|[k0 v0] m IH]; simpl in *; [by inversion Hin|].
  apply NoDup_cons in Hu as [Hk0 Hu].
  apply elem_of_cons in Hin as [Heq|Hin].
  - injection Heq as -> ->. by rewrite decide_True.
  - destruct (decide (a = k0)) as [->|]; [|by apply IH].
    exfalso. apply Hk0. apply list_elem_of_fmap. by exists (k0, outs).
Qed.

Lemma unique_keys_transpose_endpoint node inv ep :
  unique_keys inv → unique_keys (transpose_endpoint node inv ep).
Proof.
  unfold unique_keys, transpose_endpoint, JSMap.has. intros Hu.
  destruct (JSMap.get ep inv) eqn:E.
  - by rewrite keys_modify.
  - rewrite keys_set_new by done. apply NoDup_app. split_and!; [done| |].
    + intros x Hx ->%list_elem_of_singleton.
      by apply (get_None_keys _ _ E).
    + apply NoDup_singleton.
Qed.

Lemma unique_keys_transpose g : unique_keys (edges (transpose g)).
Proof.
  unfold transpose. simpl.
  assert (∀ m inv, unique_keys inv →
            unique_keys (foldl transpose_entry inv m)) as Hfold.
  { induction m as [|[node outs] m IH]; intros inv Hinv; simpl; [done|].
    apply IH. unfold transpose_entry. simpl. clear IH. revert inv Hinv.
    induction outs as [|ep outs IHo]; intros inv Hinv; simpl; [done|].
    by apply IHo, unique_keys_transpose_endpoint. }
  apply Hfold. constructor.
Qed.

Lemma edge_transpose_unique g a b :
  unique_keys (edges g) → edge (transpose g) b a ↔ edge g a b.
Proof.
  intros Hu. rewrite edge_transpose. split.
  - by apply entry_edge_successor.
  - apply successor_entry_edge.
Qed.

Lemma reachable_ext g1 g2 :
  (∀ a b, edge g1 a b ↔ edge g2 a b) →
  ∀ a b, reachable g1 a b ↔ reachable g2 a b.
Proof.
  intros He a b. unfold reachable.
  split; apply rtc_subrel; intros x y; apply He.
Qed.

End GraphFacts.

Example walk_example :
  DirectedGraph.manyWalkDfs
    (DirectedGraph.mk [("a", ["b"; "d"]); ("b", ["c"])]) ["a"]
  = ["a"; "d"; "b"; "c"].
Proof. reflexivity. Qed.

Section QueryFacts.
Import DirectedGraph DependencyTree.
Context {T : Type} `{EqDecision T}.

Lemma elem_of_foldl_add (l s : list T) (x : T) :
  x ∈ foldl (λ v y, JSSet.add y v) s l ↔ x ∈ s ∨ x ∈ l.
Proof.
  revert s. induction l as [|y l IH]; intros s; simpl.
  - split; [auto|]. intros [?|Hx]; [done|by inversion Hx].
  - rewrite IH, elem_of_add, elem_of_cons. tauto.
Qed.

Lemma elem_of_delete (x y : T) (s : list T) :
  x ∈ JSSet.delete y s ↔ x ∈ s ∧ x ≠ y.
Proof. unfold JSSet.delete. rewrite list_elem_of_filter. tauto. Qed.

Lemma elem_of_foldl_delete (l s : list T) (x : T) :
  x ∈ foldl (λ v y, JSSet.delete y v) s l ↔ x ∈ s ∧ x ∉ l.
Proof.
  revert s. induction l as [|y l IH]; intros s; simpl.
  - split; [|tauto]. intros ?. split; [done|]. intros Hx. by inversion Hx.
  - rewrite IH, elem_of_delete, not_elem_of_cons. tauto.
Qed.
End QueryFacts.

Section QueryTheorems.
Import DirectedGraph DependencyTree.

Lemma elem_of_findRelatedFiles graph files x :
  x ∈ findRelatedFiles graph files
  ↔ reachable_from graph files x ∧ x ∉ files.
Proof.
  unfold findRelatedFiles.
  rewrite elem_of_foldl_delete, elem_of_foldl_add, elem_of_manyWalkDfs.
  unfold JSSet.empty. split.
  - intros [[Hx|?] ?]; [by inversion Hx|done].
  - intros [? ?]. split; [by right|done].
Qed.

Lemma reachable_from_ext (g1 g2 : DirectedGraph.t Path) files x :
  (∀ a b, edge g1 a b ↔ edge g2 a b) →
  reachable_from g1 files x ↔ reachable_from g2 files x.
Proof.
  intros He. unfold reachable_from.
  split; intros (e & ? & Hr); exists e; (split; [done|]);
    by apply (reachable_ext _ _ He).
Qed.

(** C1. [getReferences] is [getDependencies] on the transposed edge map.
    On the map that [transpose] builds the two calls return the same
    value.  For a map [fileToDeps] with unique keys, as every [Map] has
    them, they return the same set of paths on every edge map [inverted]
    whose successor relation is the reversal of that of [fileToDeps]. *)
Theorem getReferences_eq_getDependencies_transposed
    (fileToDeps : FileToDeps) (files : list Path) :
  getReferences fileToDeps files
  = getDependencies (edges (transpose (DirectedGraph.mk fileToDeps))) files
  ∧ (unique_keys fileToDeps →
     ∀ inverted : FileToDeps,
       (∀ a b, successor inverted b a ↔ successor fileToDeps a b) →
       ∀ x, x ∈ getReferences fileToDeps files
            ↔ x ∈ getDependencies inverted files).
Proof.
  split; [done|]. intros Hu inverted Hrev x.
  unfold getReferences, getDependencies. simpl.
  rewrite !elem_of_findRelatedFiles.
  rewrite (reachable_from_ext (transpose (DirectedGraph.mk fileToDeps))
             (DirectedGraph.mk inverted)); [done|].
  intros a b. rewrite edge_transpose_unique by done.
  unfold edge. simpl. by rewrite Hrev.
Qed.

(** C2. The result of [getDependencies] contains no entrypoint, and it
    is empty when no path of length at least one leads from an entrypoint
    to any node. *)
Theorem getDependencies_excludes_entrypoints
    (fileToDeps : FileToDeps) (files : list Path) :
  (∀ x, x ∈ getDependencies fileToDeps files → x ∉ files)
  ∧ ((∀ s x, s ∈ files → ¬ tc (edge (DirectedGraph.mk fileToDeps)) s x) →
     getDependencies fileToDeps files = []).
Proof.
  unfold getDependencies. simpl. split.
  - intros x Hx. by apply elem_of_findRelatedFiles in Hx as [_ ?].
  - intros Hno. apply elem_of_nil_inv. intros x Hx.
    apply elem_of_findRelatedFiles in Hx as [(e & He & Hr) Hnot].
    destruct Hr as [|a b c Hab _]; [done|].
    apply (Hno a b He). by apply tc_once.
Qed.
End QueryTheorems.

Section GraphTheorems.
Import DirectedGraph.
Context {T : Type} `{EqDecision T}.

(** C3. [manyWalkDfs] yields no node twice, and it yields exactly the
    nodes reachable from the entrypoints, the entrypoints included. *)
Theorem manyWalkDfs_yields_reachable_once
    (g : DirectedGraph.t T) (entrypoints : list T) :
  NoDup (manyWalkDfs g entrypoints)
  ∧ (∀ x, x ∈ manyWalkDfs g entrypoints ↔ reachable_from g entrypoints x)
  ∧ (∀ e, e ∈ entrypoints → e ∈ manyWalkDfs g entrypoints).
Proof.
  split_and!.
  - apply manyWalkDfs_NoDup.
  - intros x. apply elem_of_manyWalkDfs.
  - intros e He. apply elem_of_manyWalkDfs. exists e. split; [done|].
    apply rtc_refl.
Qed.

(** C4. Transposing twice gives back the same set of edge pairs, hence
    the same reachability relation. *)
Theorem transpose_transpose_edges (g : DirectedGraph.t T) :
  unique_keys (edges g) →
  (∀ a b, edge (transpose (transpose g)) a b ↔ edge g a b)
  ∧ (∀ a b, reachable (transpose (transpose g)) a b ↔ reachable g a b).
Proof.
  intros Hu.
  assert (∀ a b, edge (transpose (transpose g)) a b ↔ edge g a b) as He.
  { intros a b.
    rewrite edge_transpose_unique by apply unique_keys_transpose.
    by apply edge_transpose_unique. }
  split; [done|]. by apply reachable_ext.
Qed.
End GraphTheorems.

Section CascadeFacts.
Import Cascade.
Variable builtinModules : list string.
Variable dirname : Path → Path.
Variable resolveSync : Path → string → ResolveOutcome.

Local Abbreviation run :=
  (resolveAndCollect builtinModules dirname resolveSync).
Local Abbreviation one := (resolveOne builtinModules dirname resolveSync).

(** How one reference changes the imported set, whatever the world. *)
Definition imported_step (file : Path) (imported : list Path)
    (m : string) : list Path :=
  if JSSet.has m builtinModules then imported
  else match resolveSync (dirname file) m with
       | Returns (Some resolved) =>
           if truthy resolved then JSSet.add resolved imported else imported
       | _ => imported
       end.

Lemma resolveOne_imported file m st :
  (one file m st).1 = imported_step file st.1 m.
Proof.
  destruct st as [imp w]. unfold resolveOne, imported_step. simpl.
  destruct (JSSet.has m builtinModules); [done|].
  destruct (resolveSync (dirname file) m) as [msg|[p|]]; try done.
  by destruct (truthy p).
Qed.

Lemma resolveMany_imported file ms st :
  (foldl (λ st m, one file m st) st ms).1
  = foldl (imported_step file) st.1 ms.
Proof.
  revert st. induction ms as [|m ms IH]; intros st; simpl; [done|].
  by rewrite IH, resolveOne_imported.
Qed.

Lemma missing_recordMissing file m w :
  truthy m = true →
  missing (recordMissing file m w)
  = JSMap.set file
      (JSSet.add m (default JSSet.empty (JSMap.get file (missing w))))
      (missing w).
Proof. unfold recordMissing. by intros ->. Qed.

Lemma resolveOne_failure file m imp w :
  JSSet.has m builtinModules = false →
  m ≠ "" →
  resolution_fails (resolveSync (dirname file) m) →
  (one file m (imp, w)).1 = imp
  ∧ missing (one file m (imp, w)).2
    = JSMap.set file
        (JSSet.add m (default JSSet.empty (JSMap.get file (missing w))))
        (missing w).
Proof.
  intros Hb Hne Hfail. unfold resolveOne. rewrite Hb.
  assert (truthy m = true) as Ht by by apply bool_decide_eq_true.
  destruct (resolveSync (dirname file) m) as [msg|[p|]]; simpl in *.
  - by rewrite missing_recordMissing.
  - rewrite Hfail. simpl. by rewrite missing_recordMissing.
  - by rewrite missing_recordMissing.
Qed.

Lemma get_set_same (file : Path) (v : list string) (m : FileToDeps) :
  JSMap.get file (JSMap.set file v m) = Some v.
Proof.
  induction m as [|[k0 v0] m IH]; simpl.
  - by rewrite decide_True.
  - destruct (decide (file = k0)) as [->|]; simpl.
    + by rewrite decide_True.
    + by rewrite decide_False.
Qed.
End CascadeFacts.

Section CascadeTheorems.
Import Cascade.

(** C5. A reference that is not a built-in, is not empty and for which
    the resolver throws or returns no path is recorded verbatim in the
    missing map under the referencing file; the imported set is left as
    it was; the references before and after it in the same list are
    processed as they would be without it; and a resolver that throws
    leaves the same imported set and missing map as one that returns
    nothing. *)
Theorem resolveAndCollect_records_failure
    (builtinModules : list string) (dirname : Path → Path)
    (resolveSync : Path → string → ResolveOutcome)
    (file : Path) (referencedModule : string)
    (importedModules : list Path) (w : World) :
  JSSet.has referencedModule builtinModules = false →
  referencedModule ≠ "" →
  resolution_fails (resolveSync (dirname file) referencedModule) →
  let run := resolveAndCollect builtinModules dirname resolveSync file in
  let st' := run (Single referencedModule) (importedModules, w) in
  st'.1 = importedModules
  ∧ missing st'.2
    = JSMap.set file
        (JSSet.add referencedModule
           (default JSSet.empty (JSMap.get file (missing w))))
        (missing w)
  ∧ (∃ refs, JSMap.get file (missing st'.2) = Some refs
             ∧ referencedModule ∈ refs)
  ∧ (∀ before after st,
       run (Several (before ++ referencedModule :: after)) st
       = run (Several after)
           (run (Single referencedModule) (run (Several before) st))
       ∧ (run (Several (before ++ referencedModule :: after)) st).1
         = (run (Several (before ++ after)) st).1)
  ∧ (∀ resolveSync',
       resolution_fails (resolveSync' (dirname file) referencedModule) →
       let st'' :=
         resolveAndCollect builtinModules dirname resolveSync' file
           (Single referencedModule) (importedModules, w) in
       st''.1 = st'.1 ∧ missing st''.2 = missing st'.2).
Proof.
  intros Hb Hne Hfail run st'. subst run st'. unfold resolveAndCollect.
  destruct (resolveOne_failure builtinModules dirname resolveSync
              file referencedModule importedModules w Hb Hne Hfail)
    as [Himp Hmiss].
  split_and!.
  - done.
  - done.
  - rewrite Hmiss, get_set_same. eexists. split; [done|].
    apply elem_of_add. by left.
  - intros before after st. split.
    + by rewrite foldl_app.
    + rewrite !resolveMany_imported, !foldl_app. simpl. f_equal.
      unfold imported_step at 1. rewrite Hb.
      destruct (resolveSync (dirname file) referencedModule)
        as [msg|[p|]]; simpl in *; [done| |done].
      by rewrite Hfail.
  - intros resolveSync' Hfail'.
    destruct (resolveOne_failure builtinModules dirname resolveSync'
                file referencedModule importedModules w Hb Hne Hfail')
      as [Himp' Hmiss'].
    split; congruence.
Qed.

(** C6. A reference that names a built-in module is dropped: the
    imported set and the missing map stay as they were and the resolver
    is not called, for a single reference and for every reference of a
    list of built-in names. *)
Theorem resolveAndCollect_drops_builtin
    (builtinModules : list string) (dirname : Path → Path)
    (resolveSync : Path → string → ResolveOutcome)
    (file : Path) (referencedModule : string)
    (importedModules : list Path) (w : World) :
  JSSet.has referencedModule builtinModules = true →
  let run := resolveAndCollect builtinModules dirname resolveSync file in
  let st' := run (Single referencedModule) (importedModules, w) in
  (st'.1 = importedModules
   ∧ missing st'.2 = missing w
   ∧ resolverCalls st'.2 = resolverCalls w)
  ∧ ∀ referencedModules,
      Forall (λ m, JSSet.has m builtinModules = true) referencedModules →
      let st'' := run (Several referencedModules) (importedModules, w) in
      st''.1 = importedModules
      ∧ missing st''.2 = missing w
      ∧ resolverCalls st''.2 = resolverCalls w.
Proof.
  intros Hb. cbv zeta. split.
  - unfold resolveAndCollect, resolveOne. by rewrite Hb.
  - intros ms Hms. unfold resolveAndCollect. clear Hb. revert w.
    induction Hms as [|m ms Hm _ IH]; intros w; cbn [foldl]; [done|].
    assert (resolveOne builtinModules dirname resolveSync file m
              (importedModules, w)
            = (importedModules, log (DebugBuiltin m) w)) as ->.
    { unfold resolveOne. by rewrite Hm. }
    apply (IH (log (DebugBuiltin m) w)).
Qed.

(** C10. The empty string as a reference never adds to the missing map,
    whatever the resolver does with it. *)
Theorem resolveAndCollect_empty_reference_not_missing
    (builtinModules : list string) (dirname : Path → Path)
    (resolveSync : Path → string → ResolveOutcome)
    (file : Path) (importedModules : list Path) (w : World) :
  missing (resolveAndCollect builtinModules dirname resolveSync file
             (Single "") (importedModules, w)).2
  = missing w.
Proof.
  simpl. unfold resolveOne.
  destruct (JSSet.has "" builtinModules); [done|].
  destruct (resolveSync (dirname file) "") as [msg|[p|]]; simpl.
  - done.
  - by destruct (truthy p).
  - done.
Qed.
End CascadeTheorems.

Section GatherFacts.
Import Gather.
Variable rootDirs : list Path.
Variable ignoreGlobs : list string.
Variable fileProcessors : list FileProcessor.
Variable fg_sync : string → Path → list string → list Path.
Variable readFileSync : Path → option string.

Local Abbreviation imported_of :=
  (getImportedFiles fileProcessors readFileSync).

(** A file for which every processor that accepts it reports nothing on
    the contents the file has and the list of discovered files. *)
Definition no_dependencies (files : list Path) (file : Path) : Prop :=
  ∀ p contents w importedFiles w',
    p ∈ fileProcessors → matches p file = true →
    readFileSync file = Some contents →
    process p file contents files w = Ok (importedFiles, w') →
    importedFiles = [].

Lemma runProcessors_nothing file contents files processors
    allImported matched w allImported' matched' w' :
  (∀ p w1 importedFiles w2,
     p ∈ processors → matches p file = true →
     process p file contents files w1 = Ok (importedFiles, w2) →
     importedFiles = []) →
  runProcessors file contents files processors allImported matched w
  = Ok (allImported', matched', w') →
  allImported' = allImported.
Proof.
  revert allImported matched w.
  induction processors as [|p ps IH]; intros acc matched w Hno; simpl.
  - congruence.
  - assert (∀ q w1 imp w2, q ∈ ps → matches q file = true →
              process q file contents files w1 = Ok (imp, w2) → imp = [])
      as Hno'.
    { intros q w1 imp w2 Hq. apply Hno. by right. }
    destruct (matches p file) eqn:Hm; [|by apply IH].
    destruct (process p file contents files w) as [[imp w1]|e] eqn:Hp;
      [|done].
    assert (imp = []) as ->.
    { eapply (Hno p); [by left|done|done]. }
    simpl. by apply IH.
Qed.

Lemma getImportedFiles_no_dependencies file w files deps w' :
  no_dependencies files file →
  imported_of file w files = Ok (deps, w') →
  deps = [].
Proof.
  intros Hno. unfold getImportedFiles.
  destruct (readFileSync file) as [contents|] eqn:Hread; [|done].
  destruct (runProcessors _ _ _ _ _ _ _) as [[[all m] w1]|e] eqn:Hr; [|done].
  destruct m; [|done]. intros [= <- <-].
  eapply runProcessors_nothing; [|done].
  intros p w2 imp w3 Hp Hm Hproc. by eapply Hno.
Qed.

Lemma gatherLoop_entries (Q : Path → list Path → Prop)
    files remaining fileToDeps w resolved w' :
  (∀ f w1 deps w2, f ∈ remaining →
     imported_of f w1 files = Ok (deps, w2) → Q f deps) →
  gatherLoop fileProcessors readFileSync files remaining fileToDeps w
  = Ok (resolved, w') →
  (∀ f, f ∈ remaining ∨ is_Some (JSMap.get f fileToDeps) →
        is_Some (JSMap.get f resolved))
  ∧ (∀ f deps, JSMap.get f resolved = Some deps →
       JSMap.get f fileToDeps = Some deps ∨ (f ∈ remaining ∧ Q f deps)).
Proof.
  revert fileToDeps w.
  induction remaining as [|file rest IH]; intros acc w HQ; simpl.
  - intros [= <- <-]. split.
    + intros f [Hf|?]; [by inversion Hf|done].
    + intros f deps ?. by left.
  - destruct (imported_of file _ files) as [[imp w1]|e] eqn:Himp; [|done].
    intros Hloop.
    destruct (IH (JSMap.set file imp acc) w1) as [Hkeys Hvals]; [|done|].
    { intros f w2 deps w3 Hf. apply HQ. by right. }
    split.
    + intros f Hf. apply Hkeys. rewrite get_set.
      destruct (decide (f = file)) as [->|Hne]; [by right|].
      destruct Hf as [[->|Hf]%elem_of_cons|Hf]; [done|by left|by right].
    + intros f deps Hget. destruct (Hvals f deps Hget) as [Hacc|[Hf HQf]].
      * rewrite get_set in Hacc.
        destruct (decide (f = file)) as [->|Hne]; [|by left].
        injection Hacc as <-. right. split; [by left|].
        eapply HQ; [by left|done].
      * right. split; [by right|done].
Qed.

(** C8. When [gather] completes, every discovered file is a key of the
    resolved map, the keys are discovered files only, and a file for which
    the processors report no dependency is mapped to the empty set. *)
Theorem gather_resolved_has_every_file resolved w :
  gather rootDirs ignoreGlobs fileProcessors fg_sync readFileSync
  = Ok (resolved, w) →
  let files := getFiles rootDirs ignoreGlobs fileProcessors fg_sync in
  (∀ file, file ∈ files → ∃ deps, JSMap.get file resolved = Some deps)
  ∧ (∀ file, JSMap.has file resolved = true → file ∈ files)
  ∧ (∀ file, file ∈ files → no_dependencies files file →
       JSMap.get file resolved = Some []).
Proof.
  intros Hg. cbv zeta. unfold gather in Hg.
  set (files := getFiles rootDirs ignoreGlobs fileProcessors fg_sync) in *.
  edestruct (gatherLoop_entries
               (λ f deps, no_dependencies files f → deps = []))
    as [Hkeys Hvals]; [|exact Hg|].
  { intros f w1 deps w2 _ Himp Hno.
    by eapply getImportedFiles_no_dependencies. }
  split_and!.
  - intros file Hf. destruct (Hkeys file) as [deps Hd]; [by left|eauto].
  - intros file Hhas. unfold JSMap.has in Hhas.
    destruct (JSMap.get file resolved) as [deps|] eqn:Hd; [|done].
    by destruct (Hvals file deps Hd) as [?|[? _]].
  - intros file Hf Hno. destruct (Hkeys file) as [deps Hd]; [by left|].
    destruct (Hvals file deps Hd) as [?|[_ Hempty]]; [done|].
    by rewrite Hd, Hempty.
Qed.
End GatherFacts.

Section PositionFacts.
Import Directive.





Lemma take_drop_str n s : take_str n s +:+ drop_str n s = s.
Proof.
  revert s. induction n as [|n IH]; intros [|c s]; try done.
  change (String c (take_str n s +:+ drop_str n s) = String c s).
  by rewrite IH.
Qed.

Lemma drop_str_add i j s : drop_str (i + j) s = drop_str j (drop_str i s).
Proof.
  revert s. induction i as [|i IH]; intros [|c s]; simpl; try done.
  by destruct j.
Qed.

Lemma prefix_append p s :
  String.prefix p s = true → ∃ r, s = p +:+ r.
Proof.
  revert s. induction p as [|c p IH]; intros [|d s]; simpl; try done.
  - intros _. by exists "".
  - intros _. by exists (String d s).
  - destruct (ascii_dec c d) as [->|]; [|done].
    intros (r & ->)%IH. by exists r.
Qed.




End PositionFacts.

(** ** Occurrences of a text in a text *)

Section OccurrenceFacts.

Lemma append_nil_l (t : string) : "" +:+ t = t.
Proof. reflexivity. Qed.

Lemma append_cons (a : ascii) (s t : string) :
  String a s +:+ t = String a (s +:+ t).
Proof. reflexivity. Qed.

Lemma append_assoc (a b c : string) : (a +:+ b) +:+ c = a +:+ b +:+ c.
Proof.
  induction a as [|x a IH]; [done|]. rewrite !append_cons. by rewrite IH.
Qed.

Lemma append_length (a b : string) :
  String.length (a +:+ b) = String.length a + String.length b.
Proof.
  induction a as [|x a IH]; [done|]. rewrite append_cons. simpl.
  by rewrite IH.
Qed.


Lemma take_str_add i j s :
  take_str (i + j) s = take_str i s +:+ take_str j (drop_str i s).
Proof.
  revert s. induction i as [|i IH]; intros s; [done|].
  destruct s as [|c s]; cbn [Nat.add take_str drop_str].
  - by destruct j.
  - rewrite append_cons. by rewrite IH.
Qed.





End OccurrenceFacts.

Section ScanFacts.
Import Directive.
Variable reNext_exec : string → option RegExpExecArray.
Hypothesis reNext_consumes : ∀ s m,
  reNext_exec s = Some m →
  matched m ≠ "" ∧ String.prefix (matched m) s = true.
Variable removeDelimiters : string → string.
Variable xml2js : string → XmlResult.
Variable reXML2JSReport_test : string → bool.
Variable reXML2JSReport_remove : string → string.

Local Abbreviation step' :=
  (step reNext_exec removeDelimiters xml2js reXML2JSReport_test
        reXML2JSReport_remove).
Local Abbreviation scan' :=
  (scan reNext_exec reNext_consumes removeDelimiters xml2js
        reXML2JSReport_test reXML2JSReport_remove).
Local Abbreviation getDirectives' :=
  (getDirectives reNext_exec reNext_consumes removeDelimiters xml2js
                 reXML2JSReport_test reXML2JSReport_remove).

(** The states the loop of [getDirectives] passes through. *)
Inductive reaches (content : string) (filePath : Path) : ScanState → Prop :=
| reaches_start : reaches content filePath (mkScan 0 [])
| reaches_next st st' :
    reaches content filePath st →
    step' content filePath st = Next st' →
    reaches content filePath st'.

Lemma scan_Next content filePath st st' :
  step' content filePath st = Next st' →
  scan' content filePath st = scan' content filePath st'.
Proof. intros Hs. funelim (scan' content filePath st); congruence. Qed.

Lemma scan_Throw content filePath st e :
  step' content filePath st = Throw e →
  scan' content filePath st = Failed e.
Proof. intros Hs. funelim (scan' content filePath st); congruence. Qed.

Lemma scan_Done content filePath st :
  step' content filePath st = Done →
  scan' content filePath st = Finished (directives st).
Proof. intros Hs. funelim (scan' content filePath st); congruence. Qed.


End ScanFacts.

(** ** Worked instances *)

Section GraphInstances.
Import DirectedGraph DependencyTree.

(** The graph of the source comment on [DirectedGraph]:
    [a -> b -> c] and [a -> d]. *)
Definition sample_edges : FileToDeps :=
  [("a", ["b"; "d"]); ("b", ["c"])].

(** Its reversal, written by hand. *)
Definition sample_reversed : FileToDeps :=
  [("c", ["b"]); ("d", ["a"]); ("b", ["a"])].

Example sample_transpose :
  edges (transpose (DirectedGraph.mk sample_edges))
  = [("b", ["a"]); ("d", ["a"]); ("c", ["b"])].
Proof. reflexivity. Qed.

Example sample_references :
  getReferences sample_edges ["c"] = ["b"; "a"].
Proof. reflexivity. Qed.

Example sample_dependencies :
  getDependencies sample_edges ["a"] = ["d"; "b"; "c"].
Proof. reflexivity. Qed.

Lemma sample_unique_keys : unique_keys sample_edges.
Proof.
  unfold unique_keys, sample_edges. simpl.
  apply NoDup_cons. split; [|apply NoDup_singleton].
  intros Hin. by apply list_elem_of_singleton in Hin.
Defined.

Lemma successor_nil (a b : Path) : successor [] a b ↔ False.
Proof. split; [|done]. by intros (outs & Hget & _). Defined.

Lemma successor_cons (k : Path) outNodes m a b :
  successor ((k, outNodes) :: m) a b
  ↔ (a = k ∧ b ∈ outNodes) ∨ (a ≠ k ∧ successor m a b).
Proof.
  unfold successor. simpl. destruct (decide (a = k)) as [->|Hne]; split.
  - intros (outs & [= <-] & Hin). by left.
  - intros [[_ Hin]|[? _]]; [|done]. by exists outNodes.
  - intros Hs. by right.
  - by intros [[? _]|[_ Hs]].
Defined.

Lemma sample_reversed_spec a b :
  successor sample_reversed b a ↔ successor sample_edges a b.
Proof.
  unfold sample_reversed, sample_edges.
  rewrite !successor_cons, !successor_nil, !elem_of_cons, !elem_of_nil.
  intuition (subst; try done; auto).
Defined.

Lemma getReferences_eq_getDependencies_transposed_witness :
  "a" ∈ getReferences sample_edges ["c"]
  ↔ "a" ∈ getDependencies sample_reversed ["c"].
Proof.
  apply (proj2 (getReferences_eq_getDependencies_transposed
                  sample_edges ["c"])).
  - exact sample_unique_keys.
  - exact sample_reversed_spec.
Defined.

Lemma getDependencies_excludes_entrypoints_witness :
  getDependencies sample_edges ["c"; "d"] = [].
Proof.
  apply (getDependencies_excludes_entrypoints sample_edges ["c"; "d"]).
  intros s x Hs Hpath.
  assert (∃ b, successor sample_edges s b) as (b & outs & Hget & _).
  { destruct Hpath as [s b Hsb|s b c Hsb _]; by exists b. }
  revert Hget. unfold sample_edges. simpl.
  apply elem_of_cons in Hs as [->|Hs];
    [|apply list_elem_of_singleton in Hs as ->];
    rewrite !decide_False by done; discriminate.
Defined.

Lemma transpose_transpose_edges_witness :
  reachable (transpose (transpose (DirectedGraph.mk sample_edges))) "a" "c"
  ↔ reachable (DirectedGraph.mk sample_edges) "a" "c".
Proof.
  apply (transpose_transpose_edges (DirectedGraph.mk sample_edges)).
  exact sample_unique_keys.
Defined.

Example sample_walk_two_entrypoints :
  manyWalkDfs (DirectedGraph.mk sample_edges) ["b"; "a"]
  = ["b"; "c"; "a"; "d"].
Proof. reflexivity. Qed.

Example sample_walk_cycle :
  manyWalkDfs (DirectedGraph.mk [("a", ["b"]); ("b", ["a"])]) ["a"]
  = ["a"; "b"].
Proof. reflexivity. Qed.
End GraphInstances.

Section CascadeInstances.
Import Cascade.

Definition sample_builtins : list string := ["fs"; "path"; "child_process"].

(** Every file of the instance lives in one directory. *)
Definition sample_dirname (file : Path) : Path := "/fixtures/a".

(** A resolver that knows one module, throws on one request and returns
    nothing for the others. *)
Definition sample_resolveSync (dir : Path) (request : string)
    : ResolveOutcome :=
  if decide (request = "./a") then Returns (Some "/fixtures/a/a.tsx")
  else if decide (request = "./broken") then Throws "Can't resolve"
  else Returns None.

Definition empty_world : World := mkWorld JSMap.empty [] [] [].

Example sample_cascade :
  let st := resolveAndCollect sample_builtins sample_dirname
              sample_resolveSync "/fixtures/a/index.ts"
              (Several ["path"; "./a"; "./missing-dep"; ""; "./broken"])
              (JSSet.empty, empty_world) in
  st.1 = ["/fixtures/a/a.tsx"]
  ∧ missing st.2
    = [("/fixtures/a/index.ts", ["./missing-dep"; "./broken"])]
  ∧ resolverCalls st.2
    = [("/fixtures/a", "./a"); ("/fixtures/a", "./missing-dep");
       ("/fixtures/a", ""); ("/fixtures/a", "./broken")].
Proof. vm_compute. done. Qed.

Lemma resolveAndCollect_records_failure_witness :
  missing (resolveAndCollect sample_builtins sample_dirname
             sample_resolveSync "/fixtures/a/index.ts"
             (Single "./missing-dep") (JSSet.empty, empty_world)).2
  = [("/fixtures/a/index.ts", ["./missing-dep"])].
Proof.
  destruct (resolveAndCollect_records_failure
              sample_builtins sample_dirname sample_resolveSync
              "/fixtures/a/index.ts" "./missing-dep"
              JSSet.empty empty_world) as (_ & Hmissing & _).
  - vm_compute. reflexivity.
  - intros Hempty. inversion Hempty.
  - vm_compute. exact I.
  - exact Hmissing.
Defined.

Lemma resolveAndCollect_drops_builtin_witness :
  resolverCalls (resolveAndCollect sample_builtins sample_dirname
                   sample_resolveSync "/fixtures/a/index.ts"
                   (Single "fs") (JSSet.empty, empty_world)).2
  = [].
Proof.
  destruct (resolveAndCollect_drops_builtin
              sample_builtins sample_dirname sample_resolveSync
              "/fixtures/a/index.ts" "fs" JSSet.empty empty_world)
    as [(_ & _ & Hcalls) _].
  - vm_compute. reflexivity.
  - exact Hcalls.
Defined.
End CascadeInstances.

Section GatherInstances.
Import Gather.

(** The tree [{a.js imports './b'; b.js imports nothing}]. *)
Definition tree_fg_sync (pattern : string) (cwd : Path)
    (ignore : list string) : list Path :=
  if decide (pattern = "**/*.{js,cjs,mjs}")
  then ["/src/a.js"; "/src/b.js"] else [].

Definition tree_readFileSync (file : Path) : option string :=
  if decide (file = "/src/a.js") then Some "import './b';"
  else if decide (file = "/src/b.js") then Some "export {};"
  else None.

Definition tree_extname (file : Path) : string :=
  if decide (file = "/src/a.js") then ".js"
  else if decide (file = "/src/b.js") then ".js"
  else "".

Definition tree_extractJsImports (contents : string)
    : option (list string) :=
  if decide (contents = "import './b';") then Some ["./b"] else Some [].

Definition tree_resolveSync (dir : Path) (request : string)
    : ResolveOutcome :=
  if decide (request = "./b") then Returns (Some "/src/b.js")
  else Returns None.

Definition tree_processors : list FileProcessor :=
  [JavascriptFileProcessor tree_extname tree_extractJsImports
     (λ reference _, Single reference)
     (Cascade.resolveAndCollect sample_builtins (λ _, "/src")
        tree_resolveSync)].

Definition tree_gather : Result (FileToDeps * World) :=
  gather ["/src"] ["**/node_modules/**"] tree_processors
         tree_fg_sync tree_readFileSync.

Definition tree_resolved : FileToDeps :=
  [("/src/a.js", ["/src/b.js"]); ("/src/b.js", [])].

Definition tree_world : World :=
  mkWorld []
    [("/src", "./b")]
    [InfoFound 2; InfoScanning "/src/a.js"; DebugTrying "./b" "/src/a.js";
     InfoScanning "/src/b.js"]
    ["/src/a.js"; "/src/b.js"].

Example tree_gather_result : tree_gather = Ok (tree_resolved, tree_world).
Proof. vm_compute. reflexivity. Qed.

(** C7. [gather] declares no options: called as the test
    ['rejects a batch size less than 1'] calls it, with [batchSize] -1, it
    does not fail; it reads both files of the tree and returns the maps
    any other call returns. *)
Theorem gather_does_not_reject_batch_size :
  gather_call ["/src"] ["**/node_modules/**"] tree_processors
    tree_fg_sync tree_readFileSync (Some {| batchSize := -1 |})
  = Ok (tree_resolved, tree_world)
  ∧ filesRead tree_world = ["/src/a.js"; "/src/b.js"]
  ∧ ∀ rootDirs ignoreGlobs fileProcessors fg_sync readFileSync options,
      gather_call rootDirs ignoreGlobs fileProcessors fg_sync readFileSync
        options
      = gather rootDirs ignoreGlobs fileProcessors fg_sync readFileSync.
Proof.
  split_and!; [|done|done]. unfold gather_call. apply tree_gather_result.
Qed.

Lemma gather_resolved_has_every_file_witness :
  JSMap.get "/src/b.js" tree_resolved = Some [].
Proof.
  destruct (gather_resolved_has_every_file
              ["/src"] ["**/node_modules/**"] tree_processors
              tree_fg_sync tree_readFileSync tree_resolved tree_world)
    as (_ & _ & Hempty).
  - vm_compute. reflexivity.
  - apply Hempty.
    + vm_compute. right. left.
    + intros p contents w imp w' Hp _ Hread.
      apply list_elem_of_singleton in Hp as ->.
      injection Hread as <-. simpl. by intros [= <- _].
Defined.
End GatherInstances.

Section DirectiveInstances.
Import Directive.

(** The answers of the XML parser on the elements of the examples. *)
Definition sample_xml2js (element : string) : XmlResult :=
  if decide (element = "<dependency-tree depends-on='./dep1.ts' />")
  then XmlParsed (Object [("dependsOn", "./dep1.ts")])
  else if decide (element = "<dependency-tree   depends-on='./dep2.js' />")
  then XmlParsed (Object [("dependsOn", "./dep2.js")])
  else if decide (element = "<dependency-tree example='demo' />")
  then XmlParsed (Object [("example", "demo")])
  else XmlRejected "Unexpected end".

Definition sample_getDirectives : string → Path → Outcome :=
  TSDirectiveProcessor.getDirectives sample_xml2js (λ _, true)
    (λ xmlMessage, xmlMessage).

Definition line (text : string) : string := text +:+ String LF "".

(** A single-line directive behind code, a directive over three lines,
    and a comment with two slashes, which is not scanned. *)
Definition valid_content : string :=
  line "import { resolve } from 'path';"
  +:+ line ""
  +:+ line "resolve(__dirname, './dep1.ts'); /// <dependency-tree depends-on='./dep1.ts' />"
  +:+ line "resolve(__dirname, './dep2.js'); /// <dependency-tree"
  +:+ line "///   depends-on='./dep2.js'"
  +:+ line "/// />"
  +:+ line "// <dependency-tree example='demo' /> // not parsed".

Example sample_valid_directives :
  sample_getDirectives valid_content "/src/index.ts"
  = Finished [[("dependsOn", "./dep1.ts")]; [("dependsOn", "./dep2.js")]].
Proof. vm_compute. reflexivity. Qed.

Definition sample_content : string :=
  line "import { resolve } from 'path';"
  +:+ line "/// <dependency-tree depends-on='./dep1.ts' />"
  +:+ line "/// <dependency-tree example='demo' />".

Example sample_validation_error :
  sample_getDirectives sample_content "/src/index.ts"
  = Failed (DirectiveError
              (mkError ValidationError "Unknown attribute: 'example'"
                       sample_content "/src/index.ts" 3 5)).
Proof. vm_compute. reflexivity. Qed.





(** A file that starts with a line feed: no alternative of [reNext]
    matches at a line feed, so the loop ends at once and the directive is
    not seen. *)
(** The position reported is that of the first occurrence of the text of
    the body in the matched unit.  Here the text stands in a comment at
    line 1, column 11; the start token at the end of line 1 makes the
    element of line 2 the body, and the error points at line 1. *)
Definition slipped_content : string :=
  line "// hello: <dependency-tree example='demo' /> ///"
  +:+ "<dependency-tree example='demo' />".

Example validation_error_position_slip :
  slipped_content
  = "// hello: " +:+ "<dependency-tree example='demo' />" +:+ " ///"
    +:+ line "" +:+ "<dependency-tree example='demo' />"
  ∧ TSDirectiveProcessor.reNext_exec slipped_content
    = Some (mkMatch slipped_content
                    (Some "<dependency-tree example='demo' />") None)
  ∧ sample_getDirectives slipped_content "/src/index.ts"
    = Failed (DirectiveError
                (mkError ValidationError "Unknown attribute: 'example'"
                         slipped_content "/src/index.ts" 1 11)).
Proof. vm_compute. done. Qed.

(** Two directives on one line: the leading run of characters is greedy,
    so the group [body] is the last directive of the line and the first
    one is neither returned nor checked. *)
Example first_of_two_directives_is_skipped :
  sample_getDirectives
    (line ("/// <dependency-tree example='demo' /> "
           +:+ "/// <dependency-tree depends-on='./dep1.ts' />"))
    "/src/index.ts"
  = Finished [[("dependsOn", "./dep1.ts")]].
Proof. vm_compute. reflexivity. Qed.

(** A directive on a line that ends in a carriage return: no alternative
    of [reNext] matches, and the scan ends without an error. *)
Example directive_before_carriage_return_is_skipped :
  sample_getDirectives
    ("/// <dependency-tree example='demo' />" +:+ String CR (line ""))
    "/src/index.ts"
  = Finished [].
Proof. vm_compute. reflexivity. Qed.

Example leading_line_feed_ends_scan :
  sample_getDirectives
    (line "" +:+ line "/// <dependency-tree example='demo' />")
    "/src/index.ts"
  = Finished [].
Proof. vm_compute. reflexivity. Qed.
End DirectiveInstances.

(** * Further properties of the graph engine *)

Section MoreGraphFacts.
Import DirectedGraph DependencyTree.
Context {T : Type} `{EqDecision T}.
Implicit Types (g : DirectedGraph.t T) (m inv : list (T * list T)).
Implicit Types (toVisit visited entrypoints nodes st outNodes : list T).
Implicit Types (a b x node ep entrypoint : T).

Lemma addMany_reverse (vals stack : list T) :
  Stack.addMany vals stack = reverse vals ++ stack.
Proof.
  revert stack. induction vals as [|v vals IH]; intros stack; simpl; [done|].
  rewrite IH, reverse_cons, <- app_assoc. done.
Qed.

Lemma walkLoop_cons_visited g node rest visited :
  JSSet.has node visited = true →
  walkLoop g (node :: rest) visited = walkLoop g rest visited.
Proof.
  intros Hv. simp walkLoop.
  destruct (sumbool_of_bool (JSSet.has node visited)); simpl; [done|].
  congruence.
Qed.

Lemma walkLoop_cons_new g node rest visited :
  JSSet.has node visited = false →
  walkLoop g (node :: rest) visited
  = (node :: (walkLoop g (expand g node rest) (JSSet.add node visited)).1,
     (walkLoop g (expand g node rest) (JSSet.add node visited)).2).
Proof.
  intros Hv. simp walkLoop.
  destruct (sumbool_of_bool (JSSet.has node visited)); simpl; [|done].
  congruence.
Qed.

Lemma walkLoop_nil g visited : walkLoop g [] visited = ([], visited).
Proof. by simp walkLoop. Qed.

(** Every value of a map is a non-empty set without repetition. *)
Definition proper_sets m : Prop :=
  Forall (λ entry : T * list T, entry.2 ≠ [] ∧ NoDup entry.2) m.

Lemma proper_sets_modify_add k node m :
  proper_sets m → proper_sets (JSMap.modify k (JSSet.add node) m).
Proof.
  unfold proper_sets. induction 1 as [|[k0 v0] m [Hne Hnd] Hm IH]; simpl.
  - constructor.
  - destruct (decide (k = k0)); constructor; try done.
    simpl in *. split; [|by apply NoDup_add].
    intros Hnil. assert (node ∈ JSSet.add node v0) as Hin
      by (apply elem_of_add; by left).
    rewrite Hnil in Hin. by inversion Hin.
Qed.

Lemma proper_sets_set_singleton k node m :
  proper_sets m → proper_sets (JSMap.set k (JSSet.of_list [node]) m).
Proof.
  rewrite of_list_singleton. unfold proper_sets.
  assert (([node] : list T) ≠ [] ∧ NoDup [node]) as Hnew.
  { split; [done|apply NoDup_singleton]. }
  induction 1 as [|[k0 v0] m Hk Hm IH]; simpl.
  - constructor; [done|constructor].
  - destruct (decide (k = k0)); constructor; done.
Qed.

Lemma proper_sets_transpose g : proper_sets (edges (transpose g)).
Proof.
  unfold transpose. simpl.
  assert (∀ m inv, proper_sets inv →
            proper_sets (foldl transpose_entry inv m)) as Hfold.
  { induction m as [|[node outs] m IH]; intros inv Hinv; simpl; [done|].
    apply IH. unfold transpose_entry. simpl. clear IH. revert inv Hinv.
    induction outs as [|ep outs IHo]; intros inv Hinv; simpl; [done|].
    apply IHo. unfold transpose_endpoint.
    destruct (JSMap.has ep inv);
      [by apply proper_sets_modify_add|by apply proper_sets_set_singleton]. }
  apply Hfold. constructor.
Qed.

Lemma get_Some_elem_of {V} (k : T) (m : list (T * V)) v :
  JSMap.get k m = Some v → (k, v) ∈ m.
Proof.
  induction m as [|[k0 v0] m IH]; simpl; [done|].
  destruct (decide (k = k0)) as [->|]; [intros [= ->]; by left|].
  intros Hg. right. by apply IH.
Qed.

Lemma reachable_flip g1 g2 :
  (∀ a b, edge g1 a b ↔ edge g2 b a) →
  ∀ a b, reachable g1 a b → reachable g2 b a.
Proof.
  intros He a b Hr. induction Hr as [|x y z Hxy _ IH]; [apply rtc_refl|].
  eapply rtc_r; [exact IH|]. by apply He.
Qed.

Lemma reachable_transpose g a b :
  unique_keys (edges g) →
  reachable (transpose g) a b ↔ reachable g b a.
Proof.
  intros Hu. split.
  - apply reachable_flip. intros x y. by apply edge_transpose_unique.
  - apply reachable_flip. intros x y. symmetry.
    by apply edge_transpose_unique.
Qed.

Lemma manyWalk_app g l1 l2 visited :
  manyWalk g (l1 ++ l2) visited
  = ((manyWalk g l1 visited).1
       ++ (manyWalk g l2 (manyWalk g l1 visited).2).1,
     (manyWalk g l2 (manyWalk g l1 visited).2).2).
Proof.
  revert visited. induction l1 as [|e l1 IH]; intros visited; simpl.
  - by destruct (manyWalk g l2 visited).
  - rewrite IH. simpl. by rewrite app_assoc.
Qed.

(** X1. [Stack] is last in, first out: [next] after [add] gives back the
    value and the stack as it was, [addMany] leaves the last value of the
    iterable on top, and [next] fails exactly on the stacks [isEmpty]
    reports. *)
Theorem stack_last_in_first_out (val : T) (vals stack : list T) :
  Stack.next (Stack.add val stack) = Some (val, stack)
  ∧ Stack.addMany vals stack = reverse vals ++ stack
  ∧ Stack.next (Stack.addMany (vals ++ [val]) stack)
    = Some (val, Stack.addMany vals stack)
  ∧ (Stack.isEmpty stack = true ↔ Stack.next stack = None).
Proof.
  split_and!.
  - done.
  - apply addMany_reverse.
  - rewrite !addMany_reverse, reverse_app. done.
  - by destruct stack.
Qed.

(** X2. The graph [transpose] returns is a well-formed map of sets: no key
    occurs twice, a key is present exactly for the nodes that are the
    target of an edge, and the set under a key is not empty, has no
    repetition and holds exactly the sources of the edges into the key. *)
Theorem transpose_well_formed g :
  unique_keys (edges (transpose g))
  ∧ (∀ k, JSMap.has k (edges (transpose g)) = true
          ↔ ∃ a, entry_edge (edges g) a k)
  ∧ (∀ k sources,
       JSMap.get k (edges (transpose g)) = Some sources →
       sources ≠ [] ∧ NoDup sources
       ∧ ∀ a, a ∈ sources ↔ entry_edge (edges g) a k).
Proof.
  assert (∀ k sources,
            JSMap.get k (edges (transpose g)) = Some sources →
            sources ≠ [] ∧ NoDup sources
            ∧ ∀ a, a ∈ sources ↔ entry_edge (edges g) a k) as Hsets.
  { intros k sources Hget.
    pose proof (proper_sets_transpose g) as Hp.
    unfold proper_sets in Hp. rewrite Forall_forall in Hp.
    destruct (Hp _ (get_Some_elem_of _ _ _ Hget)) as [Hne Hnd].
    split_and!; [done|done|]. intros a. rewrite <- edge_transpose.
    unfold edge, successor. split.
    - intros Ha. eauto.
    - intros (outs & Hg & Ha). congruence. }
  split_and!; [apply unique_keys_transpose| |exact Hsets].
  intros k. unfold JSMap.has.
  destruct (JSMap.get k (edges (transpose g))) as [sources|] eqn:Hget.
  - destruct (Hsets k sources Hget) as (Hne & _ & Hin).
    split; [intros _|done]. destruct sources as [|a sources]; [done|].
    exists a. apply Hin. by left.
  - split; [done|]. intros (a & Ha). apply edge_transpose in Ha.
    destruct Ha as (outs & Hg & _). congruence.
Qed.

(** X3. Transposing reverses reachability: [b] is reachable from [a] in
    the transposed graph exactly when [a] is reachable from [b] in the
    graph. *)
Theorem transpose_reverses_reachability g a b :
  unique_keys (edges g) →
  reachable (transpose g) a b ↔ reachable g b a.
Proof. apply reachable_transpose. Qed.

(** X7. A walk from an entrypoint that is already visited yields nothing
    and leaves the visited set as it is; a walk from any other entrypoint
    yields the entrypoint first; and a node without an entry in the edge
    map is yielded alone, with no error. *)
Theorem walkDfs_entrypoint_cases g entrypoint visited :
  (entrypoint ∈ visited → walkDfs g entrypoint visited = ([], visited))
  ∧ (entrypoint ∉ visited →
     ∃ yielded, (walkDfs g entrypoint visited).1 = entrypoint :: yielded)
  ∧ (entrypoint ∉ visited → JSMap.get entrypoint (edges g) = None →
     walkDfs g entrypoint visited
     = ([entrypoint], visited ++ [entrypoint])).
Proof.
  unfold walkDfs, Stack.add, Stack.empty. split_and!.
  - intros Hin%has_true. by rewrite walkLoop_cons_visited, walkLoop_nil.
  - intros Hnew%has_false. rewrite walkLoop_cons_new by done. eauto.
  - intros Hnew%has_false Hget. rewrite walkLoop_cons_new by done.
    unfold expand. rewrite Hget, walkLoop_nil. simpl.
    by rewrite add_new.
Qed.

(** X8. The walks run in entrypoint order and later entrypoints cannot
    change what earlier ones yielded: the sequence yielded for a list of
    entrypoints is a prefix of the sequence yielded when more entrypoints
    follow, and the rest is what the walks from the added entrypoints
    yield with the first nodes already visited. *)
Theorem manyWalkDfs_app g l1 l2 :
  manyWalkDfs g (l1 ++ l2)
  = manyWalkDfs g l1 ++ (manyWalk g l2 (manyWalkDfs g l1)).1.
Proof.
  unfold manyWalkDfs. rewrite manyWalk_app. simpl.
  destruct (manyWalk_ok g l1 JSSet.empty) as (Hv & _). simpl in Hv.
  by rewrite Hv.
Qed.
End MoreGraphFacts.

Section MoreQueryFacts.
Import DirectedGraph DependencyTree.

Lemma NoDup_foldl_add (l s : list Path) :
  NoDup s → NoDup (foldl (λ v y, JSSet.add y v) s l).
Proof.
  revert s. induction l as [|y l IH]; intros s Hs; simpl; [done|].
  by apply IH, NoDup_add.
Qed.

Lemma NoDup_foldl_delete (l s : list Path) :
  NoDup s → NoDup (foldl (λ v y, JSSet.delete y v) s l).
Proof.
  revert s. induction l as [|y l IH]; intros s Hs; simpl; [done|].
  apply IH. unfold JSSet.delete. by apply NoDup_filter.
Qed.

Lemma NoDup_findRelatedFiles graph files :
  NoDup (findRelatedFiles graph files).
Proof.
  unfold findRelatedFiles. apply NoDup_foldl_delete, NoDup_foldl_add.
  constructor.
Qed.

Lemma reachable_from_app (g : DirectedGraph.t Path) l1 l2 x :
  reachable_from g (l1 ++ l2) x
  ↔ reachable_from g l1 x ∨ reachable_from g l2 x.
Proof.
  unfold reachable_from. split.
  - intros (e & [He|He]%elem_of_app & Hr); [left|right]; eauto.
  - intros [(e & He & Hr)|(e & He & Hr)]; exists e;
      (split; [apply elem_of_app; auto|done]).
Qed.

Lemma elem_of_getDependencies (fileToDeps : FileToDeps) files x :
  x ∈ getDependencies fileToDeps files
  ↔ (∃ e, e ∈ files ∧ reachable (DirectedGraph.mk fileToDeps) e x)
    ∧ x ∉ files.
Proof. unfold getDependencies. simpl. apply elem_of_findRelatedFiles. Qed.

Lemma elem_of_getReferences (fileToDeps : FileToDeps) files x :
  unique_keys fileToDeps →
  x ∈ getReferences fileToDeps files
  ↔ (∃ e, e ∈ files ∧ reachable (DirectedGraph.mk fileToDeps) x e)
    ∧ x ∉ files.
Proof.
  intros Hu. unfold getReferences. simpl.
  rewrite elem_of_findRelatedFiles. unfold reachable_from.
  split; intros [(e & He & Hr) Hx]; (split; [|done]); exists e;
    (split; [done|]); by apply (reachable_transpose (DirectedGraph.mk _)).
Qed.

(** X4. [getReferences] answers the reverse question of
    [getDependencies]: it returns the files from which some entrypoint can
    be reached, the entrypoints left out; so [x] references [a], directly
    or through other files, exactly when [a] is a dependency of [x]. *)
Theorem getReferences_dual_to_getDependencies
    (fileToDeps : FileToDeps) (files : list Path) (a x : Path) :
  unique_keys fileToDeps →
  (x ∈ getReferences fileToDeps files
   ↔ (∃ e, e ∈ files ∧ reachable (DirectedGraph.mk fileToDeps) x e)
     ∧ x ∉ files)
  ∧ (x ∈ getReferences fileToDeps [a] ↔ a ∈ getDependencies fileToDeps [x]).
Proof.
  intros Hu. split; [by apply elem_of_getReferences|].
  rewrite elem_of_getReferences, elem_of_getDependencies by done.
  rewrite !list_elem_of_singleton. split.
  - intros [(e & ->%list_elem_of_singleton & Hr) Hne].
    split; [|done]. exists x. split; [by left|done].
  - intros [(e & ->%list_elem_of_singleton & Hr) Hne].
    split; [|done]. exists a. split; [by left|done].
Qed.

(** X5. The result of [getDependencies] is a set, without repetition, of
    exactly the nodes that are reachable from some entrypoint and are not
    entrypoints themselves: an entrypoint is left out even when another
    entrypoint depends on it. *)
Theorem getDependencies_characterized
    (fileToDeps : FileToDeps) (files : list Path) :
  NoDup (getDependencies fileToDeps files)
  ∧ ∀ x, x ∈ getDependencies fileToDeps files
         ↔ (∃ e, e ∈ files ∧ reachable (DirectedGraph.mk fileToDeps) e x)
           ∧ x ∉ files.
Proof.
  split; [apply NoDup_findRelatedFiles|apply elem_of_getDependencies].
Qed.

(** X6. Entry points combine by union: the dependencies of two lists of
    entrypoints taken together are the dependencies of either list that
    are in neither list. *)
Theorem getDependencies_app
    (fileToDeps : FileToDeps) (l1 l2 : list Path) (x : Path) :
  x ∈ getDependencies fileToDeps (l1 ++ l2)
  ↔ (x ∈ getDependencies fileToDeps l1 ∨ x ∈ getDependencies fileToDeps l2)
    ∧ (x ∉ l1) ∧ (x ∉ l2).
Proof.
  unfold getDependencies. simpl. rewrite !elem_of_findRelatedFiles.
  rewrite reachable_from_app, not_elem_of_app. tauto.
Qed.

(** X9. Dependencies are transitive: a dependency of a dependency of [x]
    is a dependency of [x], unless it is [x] itself. *)
Theorem getDependencies_transitive
    (fileToDeps : FileToDeps) (x y z : Path) :
  y ∈ getDependencies fileToDeps [x] →
  z ∈ getDependencies fileToDeps [y] →
  z ≠ x →
  z ∈ getDependencies fileToDeps [x].
Proof.
  rewrite !elem_of_getDependencies.
  intros [(e1 & ->%list_elem_of_singleton & Hxy) _]
         [(e2 & ->%list_elem_of_singleton & Hyz) _] Hne.
  split.
  - exists x. split; [by left|]. by etrans.
  - by intros ->%list_elem_of_singleton.
Qed.

Lemma transpose_reverses_reachability_witness :
  reachable (transpose (DirectedGraph.mk sample_edges)) "c" "a"
  ↔ reachable (DirectedGraph.mk sample_edges) "a" "c".
Proof.
  apply (transpose_reverses_reachability (DirectedGraph.mk sample_edges)).
  exact sample_unique_keys.
Defined.

Lemma getReferences_dual_to_getDependencies_witness :
  "a" ∈ getReferences sample_edges ["c"]
  ↔ "c" ∈ getDependencies sample_edges ["a"].
Proof.
  apply (getReferences_dual_to_getDependencies sample_edges ["c"] "c" "a").
  exact sample_unique_keys.
Defined.

Lemma getDependencies_transitive_witness :
  "c" ∈ getDependencies sample_edges ["a"].
Proof.
  apply (getDependencies_transitive sample_edges "a" "b" "c").
  - vm_compute. right. left.
  - vm_compute. left.
  - intros Heq. inversion Heq.
Defined.
End MoreQueryFacts.

(** * Further properties of the resolution cascade *)

Section MoreCascadeFacts.
Import Cascade.
Variable builtinModules : list string.
Variable dirname : Path → Path.
Variable resolveSync : Path → string → ResolveOutcome.

Local Abbreviation run :=
  (resolveAndCollect builtinModules dirname resolveSync).
Local Abbreviation one := (resolveOne builtinModules dirname resolveSync).

Lemma add_add (x : string) (s : list string) :
  JSSet.add x (JSSet.add x s) = JSSet.add x s.
Proof. unfold JSSet.add at 1. by rewrite has_add_same. Qed.

Lemma set_set (k : Path) (v v' : list string) (m : FileToDeps) :
  JSMap.set k v (JSMap.set k v' m) = JSMap.set k v m.
Proof.
  induction m as [|[k0 v0] m IH]; simpl.
  - by rewrite decide_True.
  - destruct (decide (k = k0)) as [->|Hne]; simpl.
    + by rewrite decide_True.
    + rewrite decide_False by done. by rewrite IH.
Qed.

Lemma keys_set_existing (k : Path) (v old : list string) (m : FileToDeps) :
  JSMap.get k m = Some old → JSMap.keys (JSMap.set k v m) = JSMap.keys m.
Proof.
  unfold JSMap.keys. induction m as [|[k0 v0] m IH]; simpl; [done|].
  destruct (decide (k = k0)) as [->|]; simpl; [done|].
  intros Hg. f_equal. by apply IH.
Qed.

Lemma unique_keys_set (k : Path) (v : list string) (m : FileToDeps) :
  DirectedGraph.unique_keys m → DirectedGraph.unique_keys (JSMap.set k v m).
Proof.
  unfold DirectedGraph.unique_keys. intros Hu.
  destruct (JSMap.get k m) as [old|] eqn:Hg.
  - by rewrite (keys_set_existing _ _ _ _ Hg).
  - rewrite keys_set_new by done. apply NoDup_app. split_and!; [done| |].
    + intros x Hx ->%list_elem_of_singleton. by apply (get_None_keys _ _ Hg).
    + apply NoDup_singleton.
Qed.

(** What [recordMissing] does to the missing map, whatever the string. *)
Lemma missing_recordMissing_cases file m w :
  missing (recordMissing file m w)
  = if truthy m
    then JSMap.set file
           (JSSet.add m (default JSSet.empty (JSMap.get file (missing w))))
           (missing w)
    else missing w.
Proof. unfold recordMissing. by destruct (truthy m). Qed.

Lemma resolverCalls_recordMissing file m w :
  resolverCalls (recordMissing file m w) = resolverCalls w.
Proof. unfold recordMissing. by destruct (truthy m). Qed.

(** The missing map after one reference is the old one or the old one
    with the reference added under [file]. *)
Lemma resolveOne_missing file m imp w :
  missing (one file m (imp, w)).2 = missing w
  ∨ missing (one file m (imp, w)).2
    = JSMap.set file
        (JSSet.add m (default JSSet.empty (JSMap.get file (missing w))))
        (missing w).
Proof.
  unfold resolveOne. destruct (JSSet.has m builtinModules); [by left|].
  destruct (resolveSync (dirname file) m) as [msg|[p|]]; simpl;
    try destruct (truthy p); simpl;
    rewrite ?missing_recordMissing_cases; simpl;
    destruct (truthy m); auto.
Qed.

Lemma resolveOne_imported_grows file m imp w p :
  p ∈ imp → p ∈ (one file m (imp, w)).1.
Proof.
  rewrite resolveOne_imported. unfold imported_step. simpl.
  destruct (JSSet.has m builtinModules); [done|].
  destruct (resolveSync (dirname file) m) as [msg|[q|]]; try done.
  destruct (truthy q); [|done]. intros Hp. apply elem_of_add. by right.
Qed.

(** The three parts of the frame property, for one state transition. *)
Definition extends (file : Path) (st st' : list Path * World) : Prop :=
  (∀ k, k ≠ file → JSMap.get k (missing st'.2) = JSMap.get k (missing st.2))
  ∧ (∀ r, r ∈ default [] (JSMap.get file (missing st.2)) →
          r ∈ default [] (JSMap.get file (missing st'.2)))
  ∧ (∀ p, p ∈ st.1 → p ∈ st'.1).

Lemma extends_refl file st : extends file st st.
Proof. by split_and!. Qed.

Lemma extends_trans file st1 st2 st3 :
  extends file st1 st2 → extends file st2 st3 → extends file st1 st3.
Proof.
  intros (A1 & B1 & C1) (A2 & B2 & C2). split_and!.
  - intros k Hk. by rewrite A2, A1.
  - auto.
  - auto.
Qed.

Lemma resolveOne_extends file m st : extends file st (one file m st).
Proof.
  destruct st as [imp w]. unfold extends. cbn [fst snd]. split_and!.
  - intros k Hk.
    destruct (resolveOne_missing file m imp w) as [->| ->]; [done|].
    by rewrite get_set, decide_False.
  - intros r Hr.
    destruct (resolveOne_missing file m imp w) as [->| ->]; [done|].
    rewrite get_set_same. cbn [default]. apply elem_of_add. by right.
  - intros p. apply resolveOne_imported_grows.
Qed.

Lemma resolveAndCollect_extends file reference st :
  extends file st (run file reference st).
Proof.
  destruct reference as [m|ms]; simpl; [apply resolveOne_extends|].
  revert st. induction ms as [|m ms IH]; intros st; simpl.
  - apply extends_refl.
  - eapply extends_trans; [apply resolveOne_extends|apply IH].
Qed.

Lemma resolveOne_calls file m imp w :
  resolverCalls (one file m (imp, w)).2
  = resolverCalls w
    ++ (if JSSet.has m builtinModules then [] else [(dirname file, m)]).
Proof.
  unfold resolveOne. destruct (JSSet.has m builtinModules); simpl.
  - by rewrite app_nil_r.
  - destruct (resolveSync (dirname file) m) as [msg|[p|]]; simpl;
      try destruct (truthy p); simpl;
      by rewrite ?resolverCalls_recordMissing.
Qed.

(** X10. No reference is dropped silently: a reference that is neither a
    built-in nor empty ends up either resolved, its path in the imported
    set and the missing map untouched, or in the missing map under the
    file, the imported set untouched. *)
Theorem resolveAndCollect_resolved_or_missing
    (file : Path) (referencedModule : string)
    (importedModules : list Path) (w : World) :
  JSSet.has referencedModule builtinModules = false →
  referencedModule ≠ "" →
  let st' := run file (Single referencedModule) (importedModules, w) in
  (∃ resolved,
     resolveSync (dirname file) referencedModule = Returns (Some resolved)
     ∧ resolved ≠ ""
     ∧ st'.1 = JSSet.add resolved importedModules
     ∧ resolved ∈ st'.1
     ∧ missing st'.2 = missing w)
  ∨ (resolution_fails (resolveSync (dirname file) referencedModule)
     ∧ st'.1 = importedModules
     ∧ referencedModule
         ∈ default [] (JSMap.get file (missing st'.2))).
Proof.
  intros Hb Hne. cbv zeta. unfold resolveAndCollect.
  destruct (resolveSync (dirname file) referencedModule) as [msg|[p|]]
    eqn:Hres.
  2: destruct (truthy p) eqn:Hp.
  2: { left. exists p. unfold resolveOne. rewrite Hb, Hres, Hp. simpl.
       split_and!; try done.
       - by apply bool_decide_eq_true in Hp.
       - apply elem_of_add. by left. }
  all: right.
  all: assert (resolution_fails (resolveSync (dirname file) referencedModule))
    as Hfail by (by rewrite Hres).
  all: destruct (resolveOne_failure builtinModules dirname resolveSync file
                   referencedModule importedModules w Hb Hne Hfail)
    as [Himp Hmiss].
  all: rewrite Hres in Hfail; split_and!; [done|done|].
  all: rewrite Hmiss, get_set_same; cbn [default]; apply elem_of_add;
    by left.
Qed.

(** X11. [resolveAndCollect] only adds, and only under the referencing
    file: the entries of the missing map for other files are as before,
    every reference recorded for the file is still recorded, and every
    path of the imported set is still in it. *)
Theorem resolveAndCollect_only_adds
    (file : Path) (reference : Reference) (st : list Path * World) :
  let st' := run file reference st in
  (∀ other, other ≠ file →
     JSMap.get other (missing st'.2) = JSMap.get other (missing st.2))
  ∧ (∀ r, r ∈ default [] (JSMap.get file (missing st.2)) →
          r ∈ default [] (JSMap.get file (missing st'.2)))
  ∧ (∀ p, p ∈ st.1 → p ∈ st'.1).
Proof. apply resolveAndCollect_extends. Qed.

(** X12. The resolver is an object with a state of its own, on top of
    the file system: its two answers are two functions here.  When the
    second call is answered as the first was, resolving the same
    reference a second time changes neither the imported set nor the
    missing map. *)
Theorem resolveAndCollect_repeated_same_answer
    (resolveAgain : Path → string → ResolveOutcome)
    (file : Path) (referencedModule : string) (st : list Path * World) :
  resolveAgain (dirname file) referencedModule
  = resolveSync (dirname file) referencedModule →
  let once := run file (Single referencedModule) st in
  let twice :=
    resolveAndCollect builtinModules dirname resolveAgain file
      (Single referencedModule) once in
  twice.1 = once.1 ∧ missing twice.2 = missing once.2.
Proof.
  intros Hsame. destruct st as [imp w]. cbv zeta.
  unfold resolveAndCollect, resolveOne.
  destruct (JSSet.has referencedModule builtinModules) eqn:Hb;
    cbn [fst snd]; [done|].
  rewrite Hsame.
  destruct (resolveSync (dirname file) referencedModule) as [msg|[p|]]
    eqn:Hres; cbn [fst snd].
  2: destruct (truthy p) eqn:Hp; cbn [fst snd].
  2: { by rewrite add_add. }
  all: split; [done|].
  all: rewrite !missing_recordMissing_cases.
  all: destruct (truthy referencedModule) eqn:Ht; cbn [missing called log].
  all: rewrite ?missing_recordMissing_cases, ?Ht; cbn [missing called log];
    try done.
  all: rewrite get_set_same, set_set; unfold default; cbn [from_option id].
  all: by rewrite add_add.
Qed.

(** X13. The resolver is called once for every reference of a list that
    is not a built-in, in the order of the list, each time with the
    directory of the referencing file and the reference itself; it is
    called for the empty reference too, and never for a built-in. *)
Theorem resolveAndCollect_resolver_calls
    (file : Path) (referencedModules : list string)
    (st : list Path * World) :
  resolverCalls (run file (Several referencedModules) st).2
  = resolverCalls st.2
    ++ map (λ m, (dirname file, m))
           (filter (λ m, JSSet.has m builtinModules = false)
                   referencedModules).
Proof.
  unfold resolveAndCollect. revert st.
  induction referencedModules as [|m ms IH]; intros [imp w].
  - simpl. by rewrite app_nil_r.
  - cbn [foldl]. rewrite IH.
    pose proof (resolveOne_calls file m imp w) as Hc.
    destruct (one file m (imp, w)) as [imp' w']. cbn [fst snd] in *.
    rewrite Hc, filter_cons.
    destruct (JSSet.has m builtinModules) eqn:Hb.
    + rewrite decide_False by done. by rewrite app_nil_r.
    + rewrite decide_True by done. cbn [map]. by rewrite <- app_assoc.
Qed.

Lemma resolveAndCollect_preserves
    (file : Path) (reference : Reference) (st : list Path * World) :
  (NoDup st.1 → NoDup (run file reference st).1)
  ∧ (DirectedGraph.unique_keys (missing st.2) →
     DirectedGraph.unique_keys (missing (run file reference st).2))
  ∧ (proper_sets (missing st.2) →
     proper_sets (missing (run file reference st).2)).
Proof.
  assert (∀ m st,
            (NoDup st.1 → NoDup (one file m st).1)
            ∧ (DirectedGraph.unique_keys (missing st.2) →
               DirectedGraph.unique_keys (missing (one file m st).2))
            ∧ (proper_sets (missing st.2) →
               proper_sets (missing (one file m st).2))) as Hone.
  { intros m [imp w]. cbn [fst snd]. split_and!.
    - rewrite resolveOne_imported. unfold imported_step. simpl.
      destruct (JSSet.has m builtinModules); [done|].
      destruct (resolveSync (dirname file) m) as [msg|[p|]]; try done.
      destruct (truthy p); [|done]. apply NoDup_add.
    - intros Hu.
      destruct (resolveOne_missing file m imp w) as [->| ->]; [done|].
      by apply unique_keys_set.
    - intros Hp.
      destruct (resolveOne_missing file m imp w) as [->| ->]; [done|].
      unfold proper_sets in *.
      assert (JSSet.add m (default JSSet.empty (JSMap.get file (missing w)))
              ≠ []
              ∧ NoDup (JSSet.add m
                         (default JSSet.empty
                            (JSMap.get file (missing w))))) as Hnew.
      { split.
        - intros Hnil.
          assert (m ∈ JSSet.add m
                        (default JSSet.empty (JSMap.get file (missing w))))
            as Hin by (apply elem_of_add; by left).
          rewrite Hnil in Hin. by inversion Hin.
        - apply NoDup_add.
          destruct (JSMap.get file (missing w)) as [old|] eqn:Hg;
            simpl; [|constructor].
          rewrite Forall_forall in Hp.
          by destruct (Hp _ (get_Some_elem_of _ _ _ Hg)). }
      revert Hnew. generalize (JSSet.add m
        (default JSSet.empty (JSMap.get file (missing w)))).
      intros v Hv. induction Hp as [|[k0 v0] rest Hk Hrest IH]; simpl.
      + constructor; [done|constructor].
      + destruct (decide (file = k0)); constructor; done. }
  destruct reference as [m|ms]; unfold resolveAndCollect; [apply Hone|].
  revert st. induction ms as [|m ms IH]; intros st; cbn [foldl]; [done|].
  destruct (Hone m st) as (A1 & B1 & C1).
  destruct (IH (one file m st)) as (A2 & B2 & C2).
  split_and!; auto.
Qed.

(** X14. [resolveAndCollect] keeps its two collections well formed: an
    imported set without repetition stays one, and a missing map whose
    keys are unique and whose sets are non-empty and without repetition
    stays one. *)
Theorem resolveAndCollect_keeps_well_formed
    (file : Path) (reference : Reference) (st : list Path * World) :
  let st' := run file reference st in
  (NoDup st.1 → NoDup st'.1)
  ∧ (DirectedGraph.unique_keys (missing st.2) →
     DirectedGraph.unique_keys (missing st'.2))
  ∧ (proper_sets (missing st.2) → proper_sets (missing st'.2)).
Proof. apply resolveAndCollect_preserves. Qed.
End MoreCascadeFacts.

(** * Further properties of the driving loop *)

Section MoreGatherFacts.
Import Gather.
Variable rootDirs : list Path.
Variable ignoreGlobs : list string.
Variable fileProcessors : list FileProcessor.
Variable fg_sync : string → Path → list string → list Path.
Variable readFileSync : Path → option string.

Local Abbreviation imported_of :=
  (getImportedFiles fileProcessors readFileSync).

Lemma keys_set (k : Path) (v : list Path) (m : FileToDeps) :
  JSMap.keys (JSMap.set k v m) = JSSet.add k (JSMap.keys m).
Proof.
  destruct (JSMap.get k m) as [old|] eqn:Hg.
  - rewrite (keys_set_existing _ _ _ _ Hg). unfold JSSet.add.
    by rewrite (proj2 (has_true _ _) (get_Some_key _ _ _ Hg)).
  - rewrite keys_set_new by done. symmetry. apply add_new.
    by apply has_false, get_None_keys.
Qed.

(** [matched] ends up true exactly when it was true or some processor
    accepts the file; the collected set has no repetition. *)
Lemma runProcessors_Ok file contents files processors
    allImported matched w allImported' matched' w' :
  runProcessors file contents files processors allImported matched w
  = Ok (allImported', matched', w') →
  matched' = matched || existsb (λ p, matches p file) processors
  ∧ (NoDup allImported → NoDup allImported').
Proof.
  revert allImported matched w.
  induction processors as [|p ps IH]; intros acc matched w; simpl.
  - intros [= <- <- <-]. by rewrite orb_false_r.
  - destruct (matches p file) eqn:Hm; simpl.
    + destruct (process p file contents files w) as [[imp w1]|e]; [|done].
      intros [-> Hnd]%IH. split; [by rewrite orb_true_r|].
      intros Hacc. by apply Hnd, NoDup_foldl_add.
    + apply IH.
Qed.

Lemma runProcessors_unmatched file contents files processors
    allImported matched w :
  (∀ p, p ∈ processors → matches p file = false) →
  runProcessors file contents files processors allImported matched w
  = Ok (allImported, matched, w).
Proof.
  induction processors as [|p ps IH]; intros Hno; simpl; [done|].
  rewrite (Hno p) by by left. apply IH. intros q Hq. apply Hno. by right.
Qed.

Lemma getImportedFiles_Ok file w files deps w' :
  imported_of file w files = Ok (deps, w') →
  is_Some (readFileSync file)
  ∧ (∃ p, p ∈ fileProcessors ∧ matches p file = true)
  ∧ NoDup deps.
Proof.
  unfold getImportedFiles.
  destruct (readFileSync file) as [contents|]; [|done].
  destruct (runProcessors _ _ _ _ _ _ _) as [[[all m] w1]|e] eqn:Hr; [|done].
  apply runProcessors_Ok in Hr as [-> Hnd]. simpl.
  destruct (existsb _ _) eqn:Hex; [|done]. intros [= <- <-].
  split_and!; [done| |apply Hnd; constructor].
  apply existsb_exists in Hex as (p & Hp & Hm). exists p.
  by rewrite list_elem_of_In.
Qed.

Lemma gatherLoop_keys files remaining fileToDeps w resolved w' :
  gatherLoop fileProcessors readFileSync files remaining fileToDeps w
  = Ok (resolved, w') →
  JSMap.keys resolved
  = foldl (λ s x, JSSet.add x s) (JSMap.keys fileToDeps) remaining.
Proof.
  revert fileToDeps w.
  induction remaining as [|file rest IH]; intros acc w; simpl.
  - by intros [= <- <-].
  - destruct (imported_of file _ files) as [[imp w1]|e]; [|done].
    intros Hloop%IH. by rewrite Hloop, keys_set.
Qed.

(** What [gather] guarantees for every entry of the resolved map. *)
Lemma gather_entries resolved w :
  gather rootDirs ignoreGlobs fileProcessors fg_sync readFileSync
  = Ok (resolved, w) →
  let files := getFiles rootDirs ignoreGlobs fileProcessors fg_sync in
  (∀ f, f ∈ files → is_Some (JSMap.get f resolved))
  ∧ (∀ f deps, JSMap.get f resolved = Some deps →
       is_Some (readFileSync f)
       ∧ (∃ p, p ∈ fileProcessors ∧ matches p f = true)
       ∧ NoDup deps).
Proof.
  intros Hg. cbv zeta. unfold gather in Hg.
  set (files := getFiles rootDirs ignoreGlobs fileProcessors fg_sync) in *.
  edestruct (gatherLoop_entries fileProcessors readFileSync
               (λ f deps, is_Some (readFileSync f)
                          ∧ (∃ p, p ∈ fileProcessors ∧ matches p f = true)
                          ∧ NoDup deps))
    as [Hkeys Hvals]; [|exact Hg|].
  { intros f w1 deps w2 _ Himp. by eapply getImportedFiles_Ok. }
  split.
  - intros f Hf. apply Hkeys. by left.
  - intros f deps Hget. by destruct (Hvals f deps Hget) as [?|[_ ?]].
Qed.

(** X15. The keys of the resolved map are the discovered files in the
    order of their first discovery, each once: the map is a graph with
    unique keys, whatever the globs return. *)
Theorem gather_keys_in_discovery_order resolved w :
  gather rootDirs ignoreGlobs fileProcessors fg_sync readFileSync
  = Ok (resolved, w) →
  JSMap.keys resolved
  = JSSet.of_list (getFiles rootDirs ignoreGlobs fileProcessors fg_sync)
  ∧ DirectedGraph.unique_keys resolved.
Proof.
  intros Hg. unfold gather in Hg. apply gatherLoop_keys in Hg.
  split; [done|]. unfold DirectedGraph.unique_keys. rewrite Hg.
  apply NoDup_foldl_add. constructor.
Qed.

(** X16. [gather] completes only when every discovered file could be
    read and was accepted by at least one file processor. *)
Theorem gather_success_requires_processor resolved w :
  gather rootDirs ignoreGlobs fileProcessors fg_sync readFileSync
  = Ok (resolved, w) →
  ∀ file,
    file ∈ getFiles rootDirs ignoreGlobs fileProcessors fg_sync →
    is_Some (readFileSync file)
    ∧ ∃ p, p ∈ fileProcessors ∧ matches p file = true.
Proof.
  intros Hg file Hf. destruct (gather_entries _ _ Hg) as [Hkeys Hvals].
  destruct (Hkeys file Hf) as [deps Hd].
  by destruct (Hvals file deps Hd) as (? & ? & _).
Qed.

(** X17. Every set of the resolved map is free of repetition, also when
    several processors accept a file and report the same path. *)
Theorem gather_sets_without_repetition resolved w :
  gather rootDirs ignoreGlobs fileProcessors fg_sync readFileSync
  = Ok (resolved, w) →
  ∀ file deps, JSMap.get file resolved = Some deps → NoDup deps.
Proof.
  intros Hg file deps Hd. destruct (gather_entries _ _ Hg) as [_ Hvals].
  by destruct (Hvals file deps Hd) as (_ & _ & ?).
Qed.

(** X18. A readable file that no processor accepts makes
    [getImportedFiles] throw the error that names the file. *)
Theorem getImportedFiles_without_processor_fails
    (file : Path) (contents : string) (w : World) (files : list Path) :
  readFileSync file = Some contents →
  (∀ p, p ∈ fileProcessors → matches p file = false) →
  imported_of file w files = Raised (NoProcessorMatches file).
Proof.
  intros Hread Hno. unfold getImportedFiles. rewrite Hread.
  by rewrite runProcessors_unmatched.
Qed.
End MoreGatherFacts.

(** * What the cascade collects *)

(** The strings of a reference: one, or the elements of the array. *)
Definition requests (reference : Reference) : list string :=
  match reference with
  | Single m => [m]
  | Several ms => ms
  end.

Section CollectedFacts.
Import Cascade.
Variable builtinModules : list string.
Variable dirname : Path → Path.
Variable resolveSync : Path → string → ResolveOutcome.

Local Abbreviation run :=
  (resolveAndCollect builtinModules dirname resolveSync).
Local Abbreviation one := (resolveOne builtinModules dirname resolveSync).

(** The reference [m] of [file] resolves to the path [p]. *)
Definition resolves_to (file : Path) (m : string) (p : Path) : Prop :=
  JSSet.has m builtinModules = false
  ∧ resolveSync (dirname file) m = Returns (Some p)
  ∧ p ≠ "".

(** The reference [m] of [file] is recorded as missing. *)
Definition goes_missing (file : Path) (m : string) : Prop :=
  JSSet.has m builtinModules = false
  ∧ m ≠ ""
  ∧ resolution_fails (resolveSync (dirname file) m).

Lemma truthy_true s : truthy s = true ↔ s ≠ "".
Proof. unfold truthy. apply bool_decide_eq_true. Qed.

Lemma truthy_false s : truthy s = false ↔ s = "".
Proof.
  unfold truthy. rewrite bool_decide_eq_false. split; [|by intros ->; auto].
  intros Hs. by destruct (decide (s = "")).
Qed.

Lemma resolveOne_imported_elem file m imp w p :
  p ∈ (one file m (imp, w)).1 ↔ p ∈ imp ∨ resolves_to file m p.
Proof.
  rewrite resolveOne_imported. unfold imported_step, resolves_to.
  cbn [fst]. destruct (JSSet.has m builtinModules).
  { split; [auto|]. by intros [?|[? _]]. }
  destruct (resolveSync (dirname file) m) as [msg|[q|]].
  - split; [auto|]. by intros [?|(_ & ? & _)].
  - destruct (truthy q) eqn:Hq.
    + apply truthy_true in Hq. rewrite elem_of_add. split.
      * intros [->|?]; [right|left]; done.
      * intros [?|(_ & [= ->] & _)]; [right|left]; done.
    + apply truthy_false in Hq as ->. split; [auto|].
      by intros [?|(_ & [= <-] & ?)].
  - split; [auto|]. by intros [?|(_ & ? & _)].
Qed.

Lemma resolveOne_missing_elem file m imp w r :
  r ∈ default [] (JSMap.get file (missing (one file m (imp, w)).2))
  ↔ r ∈ default [] (JSMap.get file (missing w))
    ∨ (r = m ∧ goes_missing file m).
Proof.
  unfold resolveOne, goes_missing.
  destruct (JSSet.has m builtinModules) eqn:Hb; cbn [snd].
  { cbn [missing log]. split; [auto|]. by intros [?|(_ & ? & _)]. }
  assert (∀ w0, missing w0 = missing w →
            r ∈ default [] (JSMap.get file
                              (missing (recordMissing file m w0)))
            ↔ r ∈ default [] (JSMap.get file (missing w))
              ∨ (r = m ∧ m ≠ "")) as Hrec.
  { intros w0 Hw0. rewrite missing_recordMissing_cases, Hw0.
    destruct (truthy m) eqn:Ht.
    - apply truthy_true in Ht. rewrite get_set_same.
      unfold default at 1. cbn [from_option id]. rewrite elem_of_add.
      change (@JSSet.empty string) with (@nil string). split.
      + intros [->|?]; [right|left]; done.
      + intros [?|[-> _]]; [right|left]; done.
    - apply truthy_false in Ht as ->. split; [auto|].
      by intros [?|[_ ?]]. }
  destruct (resolveSync (dirname file) m) as [msg|[p|]]; cbn [snd].
  - rewrite Hrec by done. cbn [resolution_fails]. intuition auto.
  - destruct (truthy p) eqn:Hp; cbn [snd resolution_fails].
    + cbn [missing called log]. split; [auto|].
      intros [?|(_ & _ & _ & ?)]; [done|congruence].
    + rewrite Hrec by done. intuition auto.
  - rewrite Hrec by done. cbn [resolution_fails]. intuition auto.
Qed.

Lemma resolveAndCollect_imported_elem file reference st p :
  p ∈ (run file reference st).1
  ↔ p ∈ st.1 ∨ ∃ m, m ∈ requests reference ∧ resolves_to file m p.
Proof.
  destruct st as [imp w]. unfold resolveAndCollect.
  destruct reference as [m|ms]; cbn [requests fst].
  - rewrite resolveOne_imported_elem. split; intros [?|H]; auto.
    + right. exists m. split; [by left|done].
    + destruct H as (m' & ->%list_elem_of_singleton & ?). by right.
  - revert imp w. induction ms as [|m ms IH]; intros imp w; cbn [foldl].
    + split; [auto|]. intros [?|(m & Hm & _)]; [done|by inversion Hm].
    + destruct (one file m (imp, w)) as [imp' w'] eqn:Hone.
      rewrite IH.
      assert (∀ q, q ∈ imp' ↔ q ∈ imp ∨ resolves_to file m q) as Himp'.
      { intros q. by rewrite <- resolveOne_imported_elem, Hone. }
      rewrite Himp'. split.
      * intros [[?|?]|(m' & Hm' & ?)]; auto.
        -- right. exists m. split; [by left|done].
        -- right. exists m'. split; [by right|done].
      * intros [?|(m' & [->|Hm']%elem_of_cons & ?)]; auto.
        right. by exists m'.
Qed.

Lemma resolveAndCollect_missing_elem file reference st r :
  r ∈ default [] (JSMap.get file (missing (run file reference st).2))
  ↔ r ∈ default [] (JSMap.get file (missing st.2))
    ∨ (r ∈ requests reference ∧ goes_missing file r).
Proof.
  destruct st as [imp w]. unfold resolveAndCollect.
  destruct reference as [m|ms]; cbn [requests snd].
  - rewrite resolveOne_missing_elem, list_elem_of_singleton.
    split; intros [?|[-> ?]]; auto.
  - revert imp w. induction ms as [|m ms IH]; intros imp w; cbn [foldl].
    + split; [auto|]. intros [?|[Hm _]]; [done|by inversion Hm].
    + destruct (one file m (imp, w)) as [imp' w'] eqn:Hone.
      rewrite IH.
      pose proof (resolveOne_missing_elem file m imp w r) as Hr.
      rewrite Hone in Hr. cbn [snd] in Hr. rewrite Hr, elem_of_cons.
      split.
      * intros [[?|[-> ?]]|[? ?]]; auto.
      * intros [?|[[->|?] ?]]; auto.
Qed.

(** X19. The imported set after [resolveAndCollect] holds what it held
    before and exactly the non-empty paths the resolver returns for the
    references that are not built-ins, each asked relative to the
    directory of the referencing file. *)
Theorem resolveAndCollect_imported_characterized
    (file : Path) (reference : Reference) (st : list Path * World)
    (p : Path) :
  p ∈ (run file reference st).1
  ↔ p ∈ st.1
    ∨ ∃ m, m ∈ requests reference
           ∧ JSSet.has m builtinModules = false
           ∧ resolveSync (dirname file) m = Returns (Some p)
           ∧ p ≠ "".
Proof. apply resolveAndCollect_imported_elem. Qed.

(** X20. The missing set of the file after [resolveAndCollect] holds what
    it held before and exactly the non-empty references that are not
    built-ins and for which the resolver throws, returns nothing or
    returns the empty path. *)
Theorem resolveAndCollect_missing_characterized
    (file : Path) (reference : Reference) (st : list Path * World)
    (r : string) :
  r ∈ default [] (JSMap.get file (missing (run file reference st).2))
  ↔ r ∈ default [] (JSMap.get file (missing st.2))
    ∨ (r ∈ requests reference
       ∧ JSSet.has r builtinModules = false
       ∧ r ≠ ""
       ∧ resolution_fails (resolveSync (dirname file) r)).
Proof. apply resolveAndCollect_missing_elem. Qed.
End CollectedFacts.

(** * File processors that hand references to the cascade *)

(** [s.toLowerCase()] on the letters of ASCII. *)
Definition lower (c : ascii) : ascii :=
  let n := nat_of_ascii c in
  if (65 <=? n) && (n <=? 90) then ascii_of_nat (n + 32) else c.

Fixpoint toLowerCase (s : string) : string :=
  match s with
  | EmptyString => EmptyString
  | String c rest => String (lower c) (toLowerCase rest)
  end.

(** [s.endsWith(suffix)]. *)
Definition endsWith (s suffix : string) : bool :=
  (String.length suffix <=? String.length s)
  && String.eqb (drop_str (String.length s - String.length suffix) s) suffix.

(** [CssFileProcessor] of [src/processors/css.ts].  The parser behind
    [postCssDetective] throws on a broken style sheet: [None]; the
    processor catches the error and reports it on its own logger, which
    is not part of the world.  [transformReference] is a function that
    returns. *)
Definition CssFileProcessor
    (postCssDetective : string → option (list string))
    (transformReference : string → Path → Reference)
    (resolveAndCollect :
       Path → Reference → list Path * World → list Path * World)
    : FileProcessor :=
  {| matches file := endsWith (toLowerCase file) ".css";
     supportedFileTypes := ["css"];
     process file contents files w :=
       match postCssDetective contents with
       | None => Ok (JSSet.empty, w)
       | Some references =>
           let referencedFiles := JSSet.of_list references in
           Ok (foldl (λ st referencedFile,
                        resolveAndCollect file
                          (transformReference referencedFile file) st)
                     (JSSet.empty, w) referencedFiles)
       end |}.

Section ReferenceProcessors.
Import Cascade.
Variable builtinModules : list string.
Variable dirname : Path → Path.
Variable resolveSync : Path → string → ResolveOutcome.
Variable transformReference : string → Path → Reference.

Local Abbreviation run :=
  (resolveAndCollect builtinModules dirname resolveSync).
Local Abbreviation resolved_as :=
  (resolves_to builtinModules dirname resolveSync).
Local Abbreviation lost := (goes_missing builtinModules dirname resolveSync).

(** The [forEach] of the processors over the set of references. *)
Definition collect (file : Path) (references : list string)
    (st : list Path * World) : list Path * World :=
  foldl (λ st referencedFile,
           run file (transformReference referencedFile file) st)
        st references.

(** What the processors promise for the references [references] of
    [file], from the world [w] to the result [(imp, w')]. *)
Definition collected (file : Path) (references : list string)
    (w : World) (imp : list Path) (w' : World) : Prop :=
  NoDup imp
  ∧ (∀ p, p ∈ imp ↔
       ∃ reference m,
         reference ∈ references
         ∧ m ∈ requests (transformReference reference file)
         ∧ resolved_as file m p)
  ∧ (∀ r, r ∈ default [] (JSMap.get file (missing w')) ↔
       r ∈ default [] (JSMap.get file (missing w))
       ∨ ∃ reference,
           reference ∈ references
           ∧ r ∈ requests (transformReference reference file)
           ∧ lost file r)
  ∧ (∀ other, other ≠ file →
       JSMap.get other (missing w') = JSMap.get other (missing w)).

Lemma elem_of_of_list (x : string) (l : list string) :
  x ∈ JSSet.of_list l ↔ x ∈ l.
Proof.
  unfold JSSet.of_list. rewrite elem_of_foldl_add. split; [|auto].
  intros [Hx|?]; [by inversion Hx|done].
Qed.

Lemma collect_spec file references st :
  let st' := collect file references st in
  (NoDup st.1 → NoDup st'.1)
  ∧ (∀ p, p ∈ st'.1 ↔
       p ∈ st.1
       ∨ ∃ reference m,
           reference ∈ references
           ∧ m ∈ requests (transformReference reference file)
           ∧ resolved_as file m p)
  ∧ (∀ r, r ∈ default [] (JSMap.get file (missing st'.2)) ↔
       r ∈ default [] (JSMap.get file (missing st.2))
       ∨ ∃ reference,
           reference ∈ references
           ∧ r ∈ requests (transformReference reference file)
           ∧ lost file r)
  ∧ (∀ other, other ≠ file →
       JSMap.get other (missing st'.2) = JSMap.get other (missing st.2)).
Proof.
  cbv zeta. unfold collect. revert st.
  induction references as [|reference rest IH]; intros st; cbn [foldl].
  - split_and!; [done| | |done].
    + intros p. split; [auto|].
      intros [?|(? & ? & Hin & _)]; [done|by inversion Hin].
    + intros r. split; [auto|].
      intros [?|(? & Hin & _)]; [done|by inversion Hin].
  - set (st1 := run file (transformReference reference file) st).
    destruct (IH st1) as (Hnd & Himp & Hmiss & Hother).
    destruct (resolveAndCollect_preserves builtinModules dirname resolveSync
                file (transformReference reference file) st) as [Hnd1 _].
    destruct (resolveAndCollect_extends builtinModules dirname resolveSync
                file (transformReference reference file) st)
      as (Hother1 & _ & _).
    split_and!.
    + auto.
    + intros p. rewrite Himp. unfold st1.
      rewrite resolveAndCollect_imported_elem. split.
      * intros [[?|(m & Hm & ?)]|(ref & m & Href & ?)]; auto.
        -- right. exists reference, m. split; [by left|done].
        -- right. exists ref, m. split; [by right|done].
      * intros [?|(ref & m & [->|Href]%elem_of_cons & Hm & ?)]; auto.
        -- left. right. by exists m.
        -- right. by exists ref, m.
    + intros r. rewrite Hmiss. unfold st1.
      rewrite resolveAndCollect_missing_elem. split.
      * intros [[?|[Hr ?]]|(ref & Href & ?)]; auto.
        -- right. exists reference. split; [by left|done].
        -- right. exists ref. split; [by right|done].
      * intros [?|(ref & [->|Href]%elem_of_cons & Hr & ?)]; auto.
        right. by exists ref.
    + intros other Hne. rewrite Hother by done. by apply Hother1.
Qed.

Lemma collect_collected file references w :
  collected file references w
    (collect file (JSSet.of_list references) (JSSet.empty, w)).1
    (collect file (JSSet.of_list references) (JSSet.empty, w)).2.
Proof.
  destruct (collect_spec file (JSSet.of_list references) (JSSet.empty, w))
    as (Hnd & Himp & Hmiss & Hother).
  unfold collected. cbn [fst snd] in *. split_and!.
  - apply Hnd. constructor.
  - intros p. rewrite Himp. split.
    + intros [Hp|(ref & m & Href & ?)]; [by inversion Hp|].
      rewrite elem_of_of_list in Href. by exists ref, m.
    + intros (ref & m & Href & ?). right. exists ref, m.
      by rewrite elem_of_of_list.
  - intros r. rewrite Hmiss. split.
    + intros [?|(ref & Href & ?)]; [by left|].
      rewrite elem_of_of_list in Href. right. by exists ref.
    + intros [?|(ref & Href & ?)]; [by left|]. right. exists ref.
      by rewrite elem_of_of_list.
  - done.
Qed.

(** X21. On a file the parser accepts, [JavascriptFileProcessor] does
    not reject, and it reports exactly the paths the resolver returns for
    the transformed import strings of the file, without repetition; the
    references that fail are added to the missing set of the file, and
    the missing sets of the other files are untouched. *)
Theorem javascript_process_characterized
    (extname : Path → string)
    (extractJsImports : string → option (list string))
    (file : Path) (contents : string) (files : list Path) (w : World)
    (imports : list string) :
  extractJsImports contents = Some imports →
  ∃ imp w',
    process (JavascriptFileProcessor extname extractJsImports
               transformReference run) file contents files w
    = Ok (imp, w')
    ∧ collected file imports w imp w'.
Proof.
  intros Hparse. cbn [process JavascriptFileProcessor]. rewrite Hparse.
  pose proof (collect_collected file imports w) as Hc.
  destruct (collect file (JSSet.of_list imports) (JSSet.empty, w))
    as [imp w'] eqn:E.
  exists imp, w'. split; [|done].
  change (Ok (collect file (JSSet.of_list imports) (JSSet.empty, w))
          = Ok (imp, w')).
  by rewrite E.
Qed.

(** X22. [CssFileProcessor] never rejects: on a broken style sheet it
    reports no dependency and leaves the world as it is, and otherwise
    it reports exactly the paths the resolver returns for the transformed
    references of the style sheet. *)
Theorem css_process_never_rejects
    (postCssDetective : string → option (list string))
    (file : Path) (contents : string) (files : list Path) (w : World) :
  ∃ imp w',
    process (CssFileProcessor postCssDetective transformReference run)
      file contents files w
    = Ok (imp, w')
    ∧ (postCssDetective contents = None → imp = [] ∧ w' = w)
    ∧ (∀ references, postCssDetective contents = Some references →
         collected file references w imp w').
Proof.
  cbn [process CssFileProcessor].
  destruct (postCssDetective contents) as [references|].
  - pose proof (collect_collected file references w) as Hc.
    destruct (collect file (JSSet.of_list references) (JSSet.empty, w))
      as [imp w'] eqn:E.
    exists imp, w'. split_and!; [|done|by intros ? [= <-]].
    change (Ok (collect file (JSSet.of_list references) (JSSet.empty, w))
            = Ok (imp, w')).
    by rewrite E.
  - exists [], w. by split_and!.
Qed.
End ReferenceProcessors.

(** * [TypeScriptFileProcessor] *)

(** [ts.ResolvedModuleFull], the two fields the processor reads. *)
Record ResolvedModule := mkResolvedModule {
  resolvedFileName : Path;
  isExternalLibraryImport : bool }.

(** [ts.ResolvedModuleWithFailedLookupLocations]: [resolvedModule] is
    [undefined] when TypeScript finds nothing. *)
Record ResolvedModuleWithFailedLookupLocations := mkTsResolve {
  resolvedModule : option ResolvedModule }.

Module TypeScriptFileProcessor.
Section Processor.
(** [reRootDir.test]: the root directory itself is the source of the
    regular expression. *)
Variable reRootDir_test : Path → bool.
(** [ts.preProcessFile(contents, true, true).importedFiles], the file
    names. *)
Variable preProcessFile : string → list string.
(** [require(file).entryPoint.file]; the error is thrown again. *)
Variable getEntryPointImport : Path → Result string.
Variable transformReference : string → Path → Reference.
(** The memoized [ts.resolveModuleName] with the compiler options of the
    root directory; [None] is a nullish value out of the cache. *)
Variable resolveModuleName :
  string → Path → option ResolvedModuleWithFailedLookupLocations.
Variable resolveAndCollect :
  Path → Reference → list Path * World → list Path * World.
Variable path_dirname : Path → Path.
Variable path_basename : Path → string.
Variable path_join : list string → Path.
Variable existsSync : Path → bool.

Definition isEntryPointFileName (file : string) : bool :=
  endsWith file ".entry.ts".

Definition supportedFileTypes : list string := ["ts"; "tsx"].

Definition matches (file : Path) : bool :=
  (endsWith (toLowerCase file) ".ts" || endsWith (toLowerCase file) ".tsx")
  && reRootDir_test file.

(** [filesList]: the imports of the file and, for an entry point, the
    file its [entryPoint] object names. *)
Definition importedFileNames (file : Path) (contents : string)
    : Result (list string) :=
  let filesList := preProcessFile contents in
  if isEntryPointFileName file then
    match getEntryPointImport file with
    | Raised e => Raised e
    | Ok entry => Ok (filesList ++ [entry])
    end
  else Ok filesList.

Definition globImportError (file : Path) (fileName : string) : Fatal :=
  ProcessorFailed
    ("No support glob import in TS, file " +:+ file +:+ ", import from "
     +:+ fileName).

Definition nullishError : Fatal :=
  ProcessorFailed
    ("nullish tsResolve value from memoized function. "
     +:+ "Expected result to always be non-nullish").

(** The [for (const fileName of filesList)] loop of [process]. *)
Fixpoint resolveImports (file : Path) (filesList : list string)
    (st : list Path * World) : Result (list Path * World) :=
  match filesList with
  | [] => Ok st
  | fileName :: rest =>
      match transformReference fileName file with
      | Several _ => Raised (globImportError file fileName)
      | Single referencedFile =>
          match resolveModuleName referencedFile file with
          | None => Raised nullishError
          | Some tsResolve =>
              match resolvedModule tsResolve with
              | Some module =>
                  if isExternalLibraryImport module
                  then resolveImports file rest st
                  else resolveImports file rest
                         (JSSet.add (resolvedFileName module) st.1, st.2)
              | None =>
                  resolveImports file rest
                    (resolveAndCollect file (Single referencedFile) st)
              end
          end
      end
  end.

Definition isTest (file : Path) : bool :=
  endsWith file ".tests.ts" || endsWith file ".tests.tsx".

Definition allegedTestFile (file : Path) : Path :=
  path_join [path_dirname file; "__snapshots__";
             path_basename file +:+ ".snap"].

Definition process (file : Path) (contents : string) (files : list Path)
    (w : World) : Result (list Path * World) :=
  match importedFileNames file contents with
  | Raised e => Raised e
  | Ok filesList =>
      match resolveImports file filesList (JSSet.empty, w) with
      | Raised e => Raised e
      | Ok (importedFiles, w') =>
          if isTest file && existsSync (allegedTestFile file)
          then Ok (JSSet.add (allegedTestFile file) importedFiles, w')
          else Ok (importedFiles, w')
      end
  end.

Definition processor : FileProcessor :=
  mkFileProcessor matches supportedFileTypes process.
End Processor.
End TypeScriptFileProcessor.

Section TypeScriptFacts.
Import TypeScriptFileProcessor.
Variable reRootDir_test : Path → bool.
Variable preProcessFile : string → list string.
Variable getEntryPointImport : Path → Result string.
Variable transformReference : string → Path → Reference.
Variable resolveModuleName :
  string → Path → option ResolvedModuleWithFailedLookupLocations.
Variable path_dirname : Path → Path.
Variable path_basename : Path → string.
Variable path_join : list string → Path.
Variable existsSync : Path → bool.
(** The dependency tree the processor falls back to. *)
Variable builtinModules : list string.
Variable dirname : Path → Path.
Variable resolveSync : Path → string → ResolveOutcome.

Local Abbreviation run :=
  (Cascade.resolveAndCollect builtinModules dirname resolveSync).
Local Abbreviation resolved_as :=
  (resolves_to builtinModules dirname resolveSync).
Local Abbreviation lost := (goes_missing builtinModules dirname resolveSync).
Local Abbreviation loop :=
  (resolveImports transformReference resolveModuleName run).
Local Abbreviation ts_process :=
  (process preProcessFile getEntryPointImport transformReference
     resolveModuleName run path_dirname path_basename path_join existsSync).
Local Abbreviation snapshot :=
  (allegedTestFile path_dirname path_basename path_join).

(** TypeScript resolves the import [fileName] of [file] to the file [p]
    of the project. *)
Definition ts_resolved (file : Path) (fileName : string) (p : Path) : Prop :=
  ∃ referencedFile module,
    transformReference fileName file = Single referencedFile
    ∧ resolveModuleName referencedFile file
      = Some (mkTsResolve (Some module))
    ∧ isExternalLibraryImport module = false
    ∧ resolvedFileName module = p.

(** TypeScript finds nothing for the import [fileName] of [file], which
    stands for the reference [referencedFile]. *)
Definition ts_unresolved (file : Path) (fileName referencedFile : string)
    : Prop :=
  transformReference fileName file = Single referencedFile
  ∧ resolveModuleName referencedFile file = Some (mkTsResolve None).

(** The effect of a list of imports, from the state [st] to [st']. *)
Definition imports_spec (file : Path) (filesList : list string)
    (st st' : list Path * World) : Prop :=
  (∀ p, p ∈ st'.1 ↔
     p ∈ st.1
     ∨ (∃ fileName, fileName ∈ filesList ∧ ts_resolved file fileName p)
     ∨ (∃ fileName referencedFile,
          fileName ∈ filesList
          ∧ ts_unresolved file fileName referencedFile
          ∧ resolved_as file referencedFile p))
  ∧ (∀ r, r ∈ default [] (JSMap.get file (missing st'.2)) ↔
       r ∈ default [] (JSMap.get file (missing st.2))
       ∨ (∃ fileName,
            fileName ∈ filesList
            ∧ ts_unresolved file fileName r ∧ lost file r))
  ∧ (∀ other, other ≠ file →
       JSMap.get other (missing st'.2) = JSMap.get other (missing st.2))
  ∧ (NoDup st.1 → NoDup st'.1).

Lemma imports_spec_nil file st : imports_spec file [] st st.
Proof.
  split_and!; [| |done|done].
  - intros p. split; [auto|].
    intros [?|[(? & Hin & _)|(? & ? & Hin & _)]];
      [done|by inversion Hin|by inversion Hin].
  - intros r. split; [auto|].
    intros [?|(? & Hin & _)]; [done|by inversion Hin].
Qed.

Lemma imports_spec_cons file fileName rest st st1 st' :
  imports_spec file [fileName] st st1 →
  imports_spec file rest st1 st' →
  imports_spec file (fileName :: rest) st st'.
Proof.
  intros (I1 & M1 & O1 & N1) (I2 & M2 & O2 & N2). split_and!.
  - intros p. rewrite I2, I1. split.
    + intros [[?|[(f & ->%list_elem_of_singleton & ?)
                 |(f & ref & ->%list_elem_of_singleton & ?)]]
             |[(f & Hf & ?)|(f & ref & Hf & ?)]]; auto.
      * right. left. exists fileName. split; [by left|done].
      * right. right. exists fileName, ref. split; [by left|done].
      * right. left. exists f. split; [by right|done].
      * right. right. exists f, ref. split; [by right|done].
    + intros [?|[(f & [->|Hf]%elem_of_cons & ?)
                |(f & ref & [->|Hf]%elem_of_cons & ?)]]; auto.
      * left. right. left. exists fileName. split; [by left|done].
      * right. left. by exists f.
      * left. right. right. exists fileName, ref. split; [by left|done].
      * right. right. by exists f, ref.
  - intros r. rewrite M2, M1. split.
    + intros [[?|(f & ->%list_elem_of_singleton & ?)]|(f & Hf & ?)]; auto.
      * right. exists fileName. split; [by left|done].
      * right. exists f. split; [by right|done].
    + intros [?|(f & [->|Hf]%elem_of_cons & ?)]; auto.
      * left. right. exists fileName. split; [by left|done].
      * right. by exists f.
  - intros other Hne. by rewrite O2, O1.
  - auto.
Qed.

(** One iteration of the loop that does not throw. *)
Lemma resolveImports_cons file fileName rest st st' :
  loop file (fileName :: rest) st = Ok st' →
  ∃ st1, imports_spec file [fileName] st st1 ∧ loop file rest st1 = Ok st'.
Proof.
  cbn [resolveImports].
  destruct (transformReference fileName file) as [referencedFile|ms] eqn:HT;
    [|done].
  destruct (resolveModuleName referencedFile file) as [[[module|]]|] eqn:HR;
    [| |done]; cbn [resolvedModule].
  - destruct (isExternalLibraryImport module) eqn:Hext.
    + intros Hloop. exists st. split; [|done]. split_and!; [| |done|done].
      * intros p. split; [auto|].
        intros [?|[(f & ->%list_elem_of_singleton & ref & m & HT' & HR' & He
                    & _)
                  |(f & ref & ->%list_elem_of_singleton & [HT' HR'] & _)]];
          [done| |]; rewrite HT in HT'; injection HT' as <-;
          rewrite HR in HR'; [|done].
        injection HR' as <-. congruence.
      * intros r. split; [auto|].
        intros [?|(f & ->%list_elem_of_singleton & [HT' HR'] & _)]; [done|].
        rewrite HT in HT'. injection HT' as <-. by rewrite HR in HR'.
    + intros Hloop. eexists. split; [|exact Hloop].
      split_and!; cbn [fst snd]; [| |done|apply NoDup_add].
      * intros p. rewrite elem_of_add. split.
        -- intros [->|?]; [|by left]. right. left. exists fileName.
           split; [by left|]. by exists referencedFile, module.
        -- intros [?|[(f & ->%list_elem_of_singleton & ref & m & HT' & HR'
                       & _ & <-)
                     |(f & ref & ->%list_elem_of_singleton & [HT' HR'] & _)]];
             [by right| |]; rewrite HT in HT'; injection HT' as <-;
             rewrite HR in HR'; [|done].
           injection HR' as <-. by left.
      * intros r. split; [auto|].
        intros [?|(f & ->%list_elem_of_singleton & [HT' HR'] & _)]; [done|].
        rewrite HT in HT'. injection HT' as <-. by rewrite HR in HR'.
  - intros Hloop. eexists. split; [|exact Hloop].
    destruct (resolveAndCollect_preserves builtinModules dirname resolveSync
                file (Single referencedFile) st) as [Hnd _].
    destruct (resolveAndCollect_extends builtinModules dirname resolveSync
                file (Single referencedFile) st) as (Hother & _ & _).
    split_and!; [| |done|done].
    + intros p. rewrite resolveAndCollect_imported_elem. cbn [requests].
      split.
      * intros [?|(m & ->%list_elem_of_singleton & ?)]; [by left|].
        right. right. exists fileName, referencedFile.
        split; [by left|]. by split.
      * intros [?|[(f & ->%list_elem_of_singleton & ref & m & HT' & HR' & _)
                  |(f & ref & ->%list_elem_of_singleton & [HT' HR'] & ?)]];
          [by left| |]; rewrite HT in HT'; injection HT' as <-;
          rewrite HR in HR'; [done|].
        right. exists referencedFile. split; [by left|done].
    + intros r. rewrite resolveAndCollect_missing_elem. cbn [requests].
      split.
      * intros [?|[->%list_elem_of_singleton ?]]; [by left|].
        right. exists fileName. split; [by left|]. by split.
      * intros [?|(f & ->%list_elem_of_singleton & [HT' HR'] & ?)];
          [by left|].
        rewrite HT in HT'. injection HT' as <-. right.
        split; [by left|done].
Qed.

Lemma resolveImports_Ok file filesList st st' :
  loop file filesList st = Ok st' → imports_spec file filesList st st'.
Proof.
  revert st. induction filesList as [|fileName rest IH]; intros st.
  - intros [= <-]. apply imports_spec_nil.
  - intros (st1 & Hhead & Hrest)%resolveImports_cons.
    eapply imports_spec_cons; [done|by apply IH].
Qed.

Lemma resolveImports_app file l1 l2 st :
  loop file (l1 ++ l2) st
  = match loop file l1 st with
    | Ok st1 => loop file l2 st1
    | Raised e => Raised e
    end.
Proof.
  revert st. induction l1 as [|fileName rest IH]; intros st; [done|].
  cbn [app resolveImports].
  destruct (transformReference fileName file); [|done].
  destruct (resolveModuleName _ file) as [[[module|]]|]; [| |done];
    cbn [resolvedModule]; [|apply IH].
  destruct (isExternalLibraryImport module); apply IH.
Qed.

(** X23. When [process] of the TypeScript processor completes, the set it
    returns holds exactly: the files of the project that TypeScript
    resolves the imports to, the paths the fallback resolver returns for
    the imports TypeScript finds nothing for, and the snapshot of a test
    file when it exists.  Imports resolved to an external library leave
    no trace, the imports that neither resolver finds are added to the
    missing set of the file, and the missing sets of the other files are
    untouched. *)
Theorem typescript_process_characterized
    (file : Path) (contents : string) (files : list Path) (w : World)
    (importedFiles : list Path) (w' : World) :
  ts_process file contents files w = Ok (importedFiles, w') →
  ∃ filesList,
    importedFileNames preProcessFile getEntryPointImport file contents
    = Ok filesList
    ∧ NoDup importedFiles
    ∧ (∀ p, p ∈ importedFiles ↔
         (∃ fileName, fileName ∈ filesList ∧ ts_resolved file fileName p)
         ∨ (∃ fileName referencedFile,
              fileName ∈ filesList
              ∧ ts_unresolved file fileName referencedFile
              ∧ resolved_as file referencedFile p)
         ∨ (p = snapshot file
            ∧ isTest file = true ∧ existsSync (snapshot file) = true))
    ∧ (∀ r, r ∈ default [] (JSMap.get file (missing w')) ↔
         r ∈ default [] (JSMap.get file (missing w))
         ∨ (∃ fileName,
              fileName ∈ filesList
              ∧ ts_unresolved file fileName r ∧ lost file r))
    ∧ (∀ other, other ≠ file →
         JSMap.get other (missing w') = JSMap.get other (missing w)).
Proof.
  unfold process.
  destruct (importedFileNames _ _ file contents) as [filesList|e]; [|done].
  destruct (loop file filesList (JSSet.empty, w)) as [[imp w1]|e] eqn:Hloop;
    [|done].
  apply resolveImports_Ok in Hloop as (Himp & Hmiss & Hother & Hnd).
  cbn [fst snd] in *. intros Hres. exists filesList. split; [done|].
  assert (∀ p, p ∈ imp ↔
            (∃ fileName, fileName ∈ filesList ∧ ts_resolved file fileName p)
            ∨ (∃ fileName referencedFile,
                 fileName ∈ filesList
                 ∧ ts_unresolved file fileName referencedFile
                 ∧ resolved_as file referencedFile p)) as Himp'.
  { intros p. rewrite Himp. split; [|auto].
    intros [Hp|?]; [by inversion Hp|done]. }
  destruct (isTest file && existsSync (snapshot file)) eqn:Hsnap;
    injection Hres as <- <-.
  - apply andb_true_iff in Hsnap as [Htest Hex].
    split_and!; [apply NoDup_add, Hnd; constructor| |done|done].
    intros p. rewrite elem_of_add, Himp'. split.
    + intros [->|[?|?]]; auto.
    + intros [?|[?|(-> & _)]]; auto.
  - split_and!; [apply Hnd; constructor| |done|done].
    intros p. rewrite Himp'. split; [intros [?|?]; auto|].
    intros [?|[?|(_ & Htest & Hex)]]; auto.
    rewrite Htest, Hex in Hsnap. done.
Qed.

(** X24. A glob import is fatal for the TypeScript processor: when the
    imports before it are processed without error, the loop throws the
    error that names the file and the import, whatever follows. *)
Theorem typescript_rejects_glob_import
    (file : Path) (before after : list string) (fileName : string)
    (referencedFiles : list string) (st st1 : list Path * World) :
  loop file before st = Ok st1 →
  transformReference fileName file = Several referencedFiles →
  loop file (before ++ fileName :: after) st
  = Raised (globImportError file fileName).
Proof.
  intros Hbefore Hglob. rewrite resolveImports_app, Hbefore.
  cbn [resolveImports]. by rewrite Hglob.
Qed.
End TypeScriptFacts.

(** * [FeatureFileProcessor]: the storybooks a feature file refers to *)

(** A gherkin step; [text] may be missing. *)
Record IStep := mkStep { text : option string }.

Abbreviation Storybook := string (only parsing).
Abbreviation Story := string (only parsing).

Definition QUOTE : string := String "034"%char EmptyString.

Module FeatureFileProcessor.
Section Processor.
(** The function handed to the constructor; it returns a pair or
    nothing. *)
Variable extractorFn : string → option (Storybook * Story).

Definition extractionError (stepText what : string) : Fatal :=
  ProcessorFailed
    ("Storybook extraction from " +:+ QUOTE +:+ stepText +:+ QUOTE
     +:+ " failed, it yielded no " +:+ what).

(** The [for (const step of steps)] loop of
    [getReferencedStorybookMapping]. *)
Fixpoint referencedStorybookLoop (steps : list IStep)
    (storybooks : list (Storybook * list Story))
    : Result (list (Storybook * list Story)) :=
  match steps with
  | [] => Ok storybooks
  | step :: rest =>
      match Directive.present (text step) with
      | Some stepText =>
          match extractorFn stepText with
          | Some (storybook, story) =>
              if negb (truthy storybook)
              then Raised (extractionError stepText "storybook")
              else if negb (truthy story)
              then Raised (extractionError stepText "story")
              else
                let book :=
                  default JSSet.empty (JSMap.get storybook storybooks) in
                referencedStorybookLoop rest
                  (JSMap.set storybook (JSSet.add story book) storybooks)
          | None => referencedStorybookLoop rest storybooks
          end
      | None => referencedStorybookLoop rest storybooks
      end
  end.

Definition getReferencedStorybookMapping (steps : list IStep)
    : Result (list (Storybook * list Story)) :=
  referencedStorybookLoop steps JSMap.empty.
End Processor.
End FeatureFileProcessor.

Section FeatureFacts.
Import FeatureFileProcessor.
Variable extractorFn : string → option (Storybook * Story).

(** The step [step] refers to the story [story] of [storybook]. *)
Definition refers_to (step : IStep) (storybook : Storybook) (story : Story)
    : Prop :=
  ∃ stepText,
    text step = Some stepText ∧ stepText ≠ ""
    ∧ extractorFn stepText = Some (storybook, story).

(** Every extraction names a storybook and a story. *)
Definition well_extracted (steps : list IStep) : Prop :=
  ∀ step storybook story,
    step ∈ steps → refers_to step storybook story →
    storybook ≠ "" ∧ story ≠ "".

Lemma present_Some group s :
  Directive.present group = Some s ↔ group = Some s ∧ s ≠ "".
Proof.
  unfold Directive.present. destruct group as [t|]; [|by split; [|intros []]].
  destruct (truthy t) eqn:Ht.
  - apply truthy_true in Ht. split; [by intros [= <-]|by intros [[= <-] _]].
  - apply truthy_false in Ht as ->. split; [done|]. by intros [[= <-] ?].
Qed.

Lemma present_None group :
  Directive.present group = None ↔ group = None ∨ group = Some "".
Proof.
  unfold Directive.present. destruct group as [t|]; [|by split; [left|]].
  destruct (truthy t) eqn:Ht.
  - apply truthy_true in Ht. split; [done|]. by intros [?|[= ->]].
  - apply truthy_false in Ht as ->. split; [by right|done].
Qed.

Lemma proper_sets_set (k : string) (v : list string)
    (m : list (string * list string)) :
  v ≠ [] → NoDup v → proper_sets m → proper_sets (JSMap.set k v m).
Proof.
  intros Hne Hnd. unfold proper_sets.
  induction 1 as [|[k0 v0] rest Hk Hrest IH]; simpl.
  - constructor; [done|constructor].
  - destruct (decide (k = k0)); constructor; done.
Qed.

Lemma add_nonempty (x : string) (s : list string) : JSSet.add x s ≠ [].
Proof.
  intros Hnil. assert (x ∈ JSSet.add x s) as Hin by (apply elem_of_add; auto).
  rewrite Hnil in Hin. by inversion Hin.
Qed.

Lemma get_proper (k : string) (m : list (string * list string)) :
  proper_sets m → NoDup (default JSSet.empty (JSMap.get k m)).
Proof.
  intros Hp. destruct (JSMap.get k m) as [v|] eqn:Hg; [|constructor].
  unfold proper_sets in Hp. rewrite Forall_forall in Hp.
  by destruct (Hp _ (get_Some_elem_of _ _ _ Hg)).
Qed.

Lemma referencedStorybookLoop_spec steps storybooks :
  match referencedStorybookLoop extractorFn steps storybooks with
  | Ok mapping =>
      well_extracted steps
      ∧ (∀ storybook story,
           story ∈ default [] (JSMap.get storybook mapping) ↔
           story ∈ default [] (JSMap.get storybook storybooks)
           ∨ ∃ step, step ∈ steps ∧ refers_to step storybook story)
      ∧ (DirectedGraph.unique_keys storybooks →
         DirectedGraph.unique_keys mapping)
      ∧ (proper_sets storybooks → proper_sets mapping)
  | Raised e => ¬ well_extracted steps
  end.
Proof.
  revert storybooks.
  induction steps as [|step rest IH]; intros acc;
    cbn [referencedStorybookLoop].
  - split_and!; [| |done|done].
    + intros ? ? ? Hin. by inversion Hin.
    + intros b s. split; [auto|]. intros [?|(? & Hin & _)]; [done|].
      by inversion Hin.
  - destruct (Directive.present (text step)) as [stepText|] eqn:Htext.
    2: { apply present_None in Htext.
         assert (∀ b s, ¬ refers_to step b s) as Hno.
         { intros b s (t & Ht & Hne & _).
           destruct Htext as [Htext|Htext]; rewrite Htext in Ht;
             [done|by injection Ht as <-]. }
         specialize (IH acc).
         destruct (referencedStorybookLoop extractorFn rest acc) as [mapping|e].
         - destruct IH as (Hw & Hm & Hu & Hp). split_and!; [| |done|done].
           + intros st b s [->|Hin]%elem_of_cons Hr;
               [by destruct (Hno b s)|by eapply Hw].
           + intros b s. rewrite Hm. split.
             * intros [?|(st & Hin & ?)]; [by left|].
               right. exists st. split; [by right|done].
             * intros [?|(st & [->|Hin]%elem_of_cons & ?)];
                 [by left|by destruct (Hno b s)|].
               right. by exists st.
         - intros Hw. apply IH. intros st b s Hin. apply Hw. by right. }
    apply present_Some in Htext as [Htext Hne].
    destruct (extractorFn stepText) as [[storybook story]|] eqn:Hex.
    2: { assert (∀ b s, ¬ refers_to step b s) as Hno.
         { intros b s (t & Ht & _ & Hex').
           rewrite Htext in Ht. injection Ht as <-. by rewrite Hex in Hex'. }
         specialize (IH acc).
         destruct (referencedStorybookLoop extractorFn rest acc) as [mapping|e].
         - destruct IH as (Hw & Hm & Hu & Hp). split_and!; [| |done|done].
           + intros st b s [->|Hin]%elem_of_cons Hr;
               [by destruct (Hno b s)|by eapply Hw].
           + intros b s. rewrite Hm. split.
             * intros [?|(st & Hin & ?)]; [by left|].
               right. exists st. split; [by right|done].
             * intros [?|(st & [->|Hin]%elem_of_cons & ?)];
                 [by left|by destruct (Hno b s)|].
               right. by exists st.
         - intros Hw. apply IH. intros st b s Hin. apply Hw. by right. }
    assert (refers_to step storybook story) as Hstep by by exists stepText.
    assert (∀ b s, refers_to step b s → b = storybook ∧ s = story) as Honly.
    { intros b s (t & Ht & _ & Hex'). rewrite Htext in Ht.
      injection Ht as <-. rewrite Hex in Hex'. by injection Hex' as <- <-. }
    destruct (truthy storybook) eqn:Hb; cbn [negb].
    2: { apply truthy_false in Hb. intros Hw.
         destruct (Hw step storybook story); [by left|done|done]. }
    destruct (truthy story) eqn:Hs; cbn [negb].
    2: { apply truthy_false in Hs. intros Hw.
         destruct (Hw step storybook story); [by left|done|done]. }
    apply truthy_true in Hb, Hs. cbv zeta.
    set (acc1 := JSMap.set storybook _ acc). specialize (IH acc1).
    destruct (referencedStorybookLoop extractorFn rest acc1) as [mapping|e].
    + destruct IH as (Hw & Hm & Hu & Hp). split_and!.
      * intros st b s [->|Hin]%elem_of_cons Hr; [|by eapply Hw].
        by destruct (Honly b s Hr) as [-> ->].
      * intros b s. rewrite Hm. unfold acc1. rewrite get_set.
        destruct (decide (b = storybook)) as [->|Hneq].
        -- unfold default at 1. cbn [from_option id]. rewrite elem_of_add.
           change (@JSSet.empty string) with (@nil string). split.
           ++ intros [[->|?]|(st & Hin & ?)]; [|by left|].
              ** right. exists step. split; [by left|done].
              ** right. exists st. split; [by right|done].
           ++ intros [?|(st & [->|Hin]%elem_of_cons & Hr)].
              ** left. by right.
              ** destruct (Honly _ _ Hr) as [_ ->]. left. by left.
              ** right. by exists st.
        -- split.
           ++ intros [?|(st & Hin & ?)]; [by left|].
              right. exists st. split; [by right|done].
           ++ intros [?|(st & [->|Hin]%elem_of_cons & Hr)]; [by left| |].
              ** by destruct (Honly _ _ Hr) as [-> _].
              ** right. by exists st.
      * intros Hacc. apply Hu. by apply unique_keys_set.
      * intros Hacc. apply Hp. apply proper_sets_set; [|apply NoDup_add|done].
        -- apply add_nonempty.
        -- by apply get_proper.
    + intros Hw. apply IH. intros st b s Hin. apply Hw. by right.
Qed.

(** X25. [getReferencedStorybookMapping] throws exactly when the
    extractor yields an empty storybook or an empty story for the text of
    some step.  Otherwise the map it returns holds, under each storybook,
    exactly the stories that the steps with a non-empty text refer to;
    its keys are unique and its sets are non-empty and free of
    repetition. *)
Theorem getReferencedStorybookMapping_characterized (steps : list IStep) :
  match getReferencedStorybookMapping extractorFn steps with
  | Ok mapping =>
      well_extracted steps
      ∧ (∀ storybook story,
           story ∈ default [] (JSMap.get storybook mapping) ↔
           ∃ step, step ∈ steps ∧ refers_to step storybook story)
      ∧ DirectedGraph.unique_keys mapping
      ∧ proper_sets mapping
  | Raised e => ¬ well_extracted steps
  end.
Proof.
  unfold getReferencedStorybookMapping.
  pose proof (referencedStorybookLoop_spec steps JSMap.empty) as Hspec.
  destruct (referencedStorybookLoop extractorFn steps JSMap.empty)
    as [mapping|e]; [|done].
  destruct Hspec as (Hw & Hm & Hu & Hp). split_and!; [done| | |].
  - intros b s. rewrite Hm. split; [|auto].
    intros [Hin|?]; [by inversion Hin|done].
  - apply Hu. constructor.
  - apply Hp. constructor.
Qed.
End FeatureFacts.

(** * Further properties of the directive processor *)

(** A directive whose only attribute name is [dependsOn]. *)
Definition only_dependsOn (d : Directive.Directive) : Prop :=
  Forall (λ key, key = "dependsOn") (JSMap.keys d).

Section ValidationFacts.
Import Directive.

Lemma firstUnknownKey_None keys :
  firstUnknownKey keys = None ↔ Forall (λ key, key = "dependsOn") keys.
Proof.
  induction keys as [|k keys IH]; simpl; [by split; [constructor|]|].
  destruct (JSSet.has k allowedAttributes) eqn:Hk.
  - apply has_true, list_elem_of_singleton in Hk as ->.
    rewrite IH. split; [by constructor|]. by inversion 1.
  - apply has_false in Hk. split; [done|]. inversion 1 as [|? ? -> _].
    destruct Hk. by left.
Qed.

(** X26. [assertDirective] returns its argument, unchanged, exactly when
    the argument is an object all of whose keys are [dependsOn]; it
    throws on [undefined] and on every object with another key, and an
    object without keys passes. *)
Theorem assertDirective_accepts_iff (obj : Attributes) (d : Directive) :
  assertDirective obj = inr d ↔ obj = Object d ∧ only_dependsOn d.
Proof.
  unfold assertDirective, only_dependsOn. destruct obj as [|entries].
  { split; [done|]. by intros [? _]. }
  destruct (firstUnknownKey (JSMap.keys entries)) as [key|] eqn:Hk.
  - split; [done|]. intros [[= <-] Hall%firstUnknownKey_None]. congruence.
  - apply firstUnknownKey_None in Hk. split.
    + by intros [= <-].
    + by intros [[= <-] _].
Qed.
End ValidationFacts.

Section MoreScanFacts.
Import Directive.
Variable reNext_exec : string → option RegExpExecArray.
Hypothesis reNext_consumes : ∀ s m,
  reNext_exec s = Some m →
  matched m ≠ "" ∧ String.prefix (matched m) s = true.
Variable removeDelimiters : string → string.
Variable xml2js : string → XmlResult.
Variable reXML2JSReport_test : string → bool.
Variable reXML2JSReport_remove : string → string.

Local Abbreviation step' :=
  (step reNext_exec removeDelimiters xml2js reXML2JSReport_test
        reXML2JSReport_remove).
Local Abbreviation scan' :=
  (scan reNext_exec reNext_consumes removeDelimiters xml2js
        reXML2JSReport_test reXML2JSReport_remove).
Local Abbreviation getDirectives' :=
  (getDirectives reNext_exec reNext_consumes removeDelimiters xml2js
                 reXML2JSReport_test reXML2JSReport_remove).
Local Abbreviation reaches' :=
  (reaches reNext_exec removeDelimiters xml2js reXML2JSReport_test
           reXML2JSReport_remove).

(** The directive [d] comes from the element [element] of the content:
    the loop reached the cursor position of [st], [reNext] matched there
    with [element] as its group [body], the element stands in the content
    behind the text already consumed and the text [pre] of the unit, and
    [d] is the attributes object the XML parser gives for it. *)
Definition parsed_from (content : string) (filePath : Path)
    (d : Directive) : Prop :=
  ∃ st m element pre post,
    reaches' content filePath st
    ∧ reNext_exec (drop_str (lastIndex st) content) = Some m
    ∧ body m = Some element
    ∧ element ≠ ""
    ∧ content
      = take_str (lastIndex st) content +:+ pre +:+ element +:+ post
    ∧ xml2js (removeDelimiters element) = XmlParsed (Object d).

(** A group of a match is a part of the match. *)
Definition body_within_match : Prop :=
  ∀ s m element,
    reNext_exec s = Some m → body m = Some element →
    ∃ pre post, matched m = pre +:+ element +:+ post.

Lemma step_Next_directives content filePath st st' :
  body_within_match →
  reaches' content filePath st →
  step' content filePath st = Next st' →
  directives st' = directives st
  ∨ ∃ d, only_dependsOn d ∧ parsed_from content filePath d
         ∧ directives st' = directives st ++ [d].
Proof.
  intros Hwithin Hreach. unfold step.
  destruct (reNext_exec (drop_str (lastIndex st) content)) as [m|] eqn:Hm;
    [|done].
  destruct (present (body m)) as [element|] eqn:Hbody.
  - destruct (xml2js (removeDelimiters element)) as [?|attributes] eqn:Hxml;
      [by destruct (reXML2JSReport_test _)|].
    destruct (assertDirective attributes) as [?|d] eqn:Hassert; [done|].
    apply assertDirective_accepts_iff in Hassert as [-> Hd].
    apply present_Some in Hbody as [Hbody Hne].
    intros [= <-]. right. exists d. split_and!; [done| |done].
    destruct (Hwithin _ _ _ Hm Hbody) as (pre & post & Hplace).
    destruct (reNext_consumes _ _ Hm) as [_ (r & Hr)%prefix_append].
    exists st, m, element, pre, (post +:+ r). split_and!; try done.
    rewrite <- (take_drop_str (lastIndex st) content) at 1.
    by rewrite Hr, Hplace, !append_assoc.
  - destruct (present (syntaxError m)); [done|]. intros [= <-]. by left.
Qed.

Lemma scan_Finished content filePath st result :
  body_within_match →
  reaches' content filePath st →
  Forall (λ d, only_dependsOn d ∧ parsed_from content filePath d)
         (directives st) →
  scan' content filePath st = Finished result →
  Forall (λ d, only_dependsOn d ∧ parsed_from content filePath d) result.
Proof.
  intros Hwithin.
  remember (String.length content - lastIndex st) as n eqn:Hn.
  revert st Hn. induction n as [n IH] using lt_wf_ind.
  intros st -> Hreach Hst.
  destruct (step' content filePath st) as [|st'|e] eqn:Hstep.
  - rewrite (scan_Done _ reNext_consumes _ _ _ _ _ _ _ Hstep).
    by intros [= <-].
  - rewrite (scan_Next _ reNext_consumes _ _ _ _ _ _ _ _ Hstep).
    pose proof (step_advances _ reNext_consumes _ _ _ _ _ _ _ _ Hstep).
    apply (IH (String.length content - lastIndex st')); [lia|done| |].
    { by eapply reaches_next. }
    destruct (step_Next_directives _ _ _ _ Hwithin Hreach Hstep)
      as [->|(d & Hd & Hfrom & ->)]; [done|].
    apply Forall_app. split; [done|]. by constructor.
  - by rewrite (scan_Throw _ reNext_consumes _ _ _ _ _ _ _ _ Hstep).
Qed.

(** X27. The groups of a match being parts of the match, every directive
    [getDirectives] returns has no key but [dependsOn] and comes from
    the content: at a cursor position the loop reached, [reNext] matched
    with an element as its group [body], this element stands in the
    content behind the consumed text, within the matched unit, and the
    directive is the attributes object the XML parser gives for the
    element without its continuation delimiters. *)
Theorem getDirectives_returns_valid_directives
    (content : string) (filePath : Path) (result : list Directive) :
  (∀ s m element,
     reNext_exec s = Some m → body m = Some element →
     ∃ pre post, matched m = pre +:+ element +:+ post) →
  getDirectives' content filePath = Finished result →
  Forall (λ d,
            only_dependsOn d
            ∧ ∃ st m element pre post,
                reaches' content filePath st
                ∧ reNext_exec (drop_str (lastIndex st) content) = Some m
                ∧ body m = Some element
                ∧ element ≠ ""
                ∧ content
                  = take_str (lastIndex st) content
                    +:+ pre +:+ element +:+ post
                ∧ xml2js (removeDelimiters element) = XmlParsed (Object d))
         result.
Proof.
  intros Hwithin Hscan.
  apply (scan_Finished content filePath (mkScan 0 []) result Hwithin);
    [apply reaches_start|constructor|exact Hscan].
Qed.
End MoreScanFacts.

(** * The groups of [reNext] in [TSDirectiveProcessor] *)

Section GroupFacts.
Import Directive TSDirectiveProcessor.

Lemma substring_take_drop a len s :
  String.substring a len s = take_str len (drop_str a s).
Proof.
  revert s. induction a as [|a IH]; intros s.
  - cbn [drop_str]. revert s.
    induction len as [|len IHlen]; intros [|c s]; simpl; try done.
    by rewrite IHlen.
  - destruct s as [|c s]; simpl; [by destruct len|]. apply IH.
Qed.

(** The group [body] of a match of [reNext] is a part of the match. *)
Lemma reNext_body_within s m element :
  reNext_exec s = Some m → body m = Some element →
  ∃ pre post, matched m = pre +:+ element +:+ post.
Proof.
  unfold reNext_exec.
  destruct (backtrack (bodyUnit s) _) as [m1|] eqn:HA.
  { intros [= <-]. apply backtrack_Some in HA as (p & HA).
    unfold bodyUnit in HA.
    destruct (String.prefix "///" (drop_str p s)); [|done].
    destruct (bodyAt _) as [[blanks len]|]; [|done].
    destruct (unitEnd s _) as [n|] eqn:Hn; [|done].
    injection HA as <-. apply unitEnd_ge in Hn. cbn [body matched].
    intros [= <-]. set (a := p + 3 + blanks) in *.
    exists (take_str a s), (take_str (n - a - len) (drop_str (a + len) s)).
    replace n with (a + (len + (n - a - len))) at 1 by lia.
    by rewrite !take_str_add, substring_take_drop, drop_str_add. }
  destruct (backtrack (syntaxErrorUnit s) _) as [m2|] eqn:HB.
  { intros [= <-]. apply backtrack_Some in HB as (p & HB).
    unfold syntaxErrorUnit in HB. cbv zeta in HB.
    repeat case_match; try done. by injection HB as <-. }
  unfold restUnit. repeat case_match; try done. by intros [= <-].
Qed.
End GroupFacts.

(** * Where the scan of [TSDirectiveProcessor] stops *)

Section StopFacts.
Import Directive TSDirectiveProcessor.

Lemma backtrack_None {A} (attempt : nat → option A) p :
  (∀ q, q ≤ p → attempt q = None) → backtrack attempt p = None.
Proof.
  induction p as [|p IH]; intros Hnone; simpl.
  - by rewrite Hnone.
  - rewrite Hnone by done. apply IH. intros q Hq. apply Hnone. lia.
Qed.

Lemma span_line_app first c rest :
  span isLineCharacter first = String.length first →
  isLineCharacter c = false →
  span isLineCharacter (first +:+ String c rest) = String.length first.
Proof.
  intros Hfirst Hc. induction first as [|a first IH]; simpl in *.
  - by rewrite Hc.
  - destruct (isLineCharacter a); [|done]. f_equal. apply IH. lia.
Qed.

Lemma drop_str_app_le p first tail :
  p ≤ String.length first →
  drop_str p (first +:+ tail) = drop_str p first +:+ tail.
Proof.
  revert first. induction p as [|p IH]; intros first Hp; [done|].
  destruct first as [|a first]; simpl in *; [lia|]. apply IH. lia.
Qed.

Lemma drop_str_length s : drop_str (String.length s) s = "".
Proof. induction s as [|a s IH]; [done|]. apply IH. Qed.

(** The start token cannot straddle a character that is not a slash. *)
Lemma start_token_within first c rest :
  c ≠ "/"%char →
  String.prefix "///" (first +:+ String c rest) = true →
  String.prefix "///" first = true.
Proof.
  intros Hc.
  destruct first as [|a1 [|a2 [|a3 first]]];
    rewrite ?append_cons, ?append_nil_l; cbn [String.prefix].
  - by destruct (ascii_dec "/" c) as [<-|].
  - destruct (ascii_dec "/" a1); [|done].
    by destruct (ascii_dec "/" c) as [<-|].
  - destruct (ascii_dec "/" a1); [|done].
    destruct (ascii_dec "/" a2); [|done].
    by destruct (ascii_dec "/" c) as [<-|].
  - destruct (ascii_dec "/" a1); [|done].
    destruct (ascii_dec "/" a2); [|done].
    destruct (ascii_dec "/" a3); [|done].
    intros _. by destruct first.
Qed.

Lemma reNext_exec_unmatched first c rest :
  span isLineCharacter first = String.length first →
  (∀ p, String.prefix "///" (drop_str p first) = false) →
  c = CR ∨ (c = LF ∧ first = "") →
  TSDirectiveProcessor.reNext_exec (first +:+ String c rest) = None.
Proof.
  intros Hfirst Htoken Hc.
  assert (isLineCharacter c = false) as Hterm.
  { by destruct Hc as [->|[-> _]]. }
  assert (c ≠ "/"%char) as Hslash.
  { by destruct Hc as [->|[-> _]]. }
  assert (∀ q, q ≤ String.length first →
            String.prefix "///" (drop_str q (first +:+ String c rest))
            = false) as Hno.
  { intros q Hq. rewrite drop_str_app_le by done.
    destruct (String.prefix "///" (drop_str q first +:+ String c rest))
      eqn:Hp; [|done].
    apply start_token_within in Hp; [|done]. by rewrite Htoken in Hp. }
  unfold TSDirectiveProcessor.reNext_exec. cbv zeta.
  rewrite span_line_app by done.
  rewrite backtrack_None.
  2: { intros q Hq. unfold TSDirectiveProcessor.bodyUnit.
       by rewrite Hno. }
  rewrite backtrack_None.
  2: { intros q Hq. unfold TSDirectiveProcessor.syntaxErrorUnit.
       by rewrite Hno. }
  unfold TSDirectiveProcessor.restUnit. rewrite span_line_app by done.
  destruct (String.length first) as [|k] eqn:Hlen in |- *; [done|].
  unfold TSDirectiveProcessor.unitEnd. cbn [drop_str Nat.add].
  rewrite span_line_app by done.
  rewrite drop_str_app_le, drop_str_length by done. rewrite append_nil_l.
  destruct Hc as [->|[_ ->]]; [done|by simpl in Hlen].
Qed.

(** X28. The scan ends, silently and with no directive, on a file whose
    first line has no start token and ends in a carriage return, and on
    a file that starts with a line feed: no alternative of [reNext]
    matches there, so the directives in the rest of the file are neither
    returned nor checked. *)
Theorem getDirectives_stops_silently
    (xml2js : string → XmlResult)
    (reXML2JSReport_test : string → bool)
    (reXML2JSReport_remove : string → string)
    (first : string) (c : ascii) (rest : string) (filePath : Path) :
  span isLineCharacter first = String.length first →
  (∀ p, String.prefix "///" (drop_str p first) = false) →
  c = CR ∨ (c = LF ∧ first = "") →
  TSDirectiveProcessor.getDirectives xml2js reXML2JSReport_test
    reXML2JSReport_remove (first +:+ String c rest) filePath
  = Finished [].
Proof.
  intros Hfirst Htoken Hc.
  unfold TSDirectiveProcessor.getDirectives, Directive.getDirectives.
  rewrite scan_Done; [done|].
  unfold step. cbn [lastIndex drop_str].
  by rewrite reNext_exec_unmatched.
Qed.
End StopFacts.

(** * From directives to edges *)

(** The values of [depends-on] that [process] hands on: the empty value
    counts as none. *)
Definition targets (found : list Directive.Directive) : list string :=
  omap (λ d, Directive.present (Directive.dependsOn d)) found.

Section DirectiveProcessFacts.
Import Directive.
Variable reNext_exec : string → option RegExpExecArray.
Hypothesis reNext_consumes : ∀ s m,
  reNext_exec s = Some m →
  matched m ≠ "" ∧ String.prefix (matched m) s = true.
Variable removeDelimiters : string → string.
Variable xml2js : string → XmlResult.
Variable reXML2JSReport_test : string → bool.
Variable reXML2JSReport_remove : string → string.
Variable builtinModules : list string.
Variable dirname : Path → Path.
Variable resolveSync : Path → string → ResolveOutcome.
Variable transformReference : string → Path → Reference.

Local Abbreviation run :=
  (Cascade.resolveAndCollect builtinModules dirname resolveSync).
Local Abbreviation getDirectives' :=
  (getDirectives reNext_exec reNext_consumes removeDelimiters xml2js
                 reXML2JSReport_test reXML2JSReport_remove).
Local Abbreviation process' :=
  (Directive.process reNext_exec reNext_consumes removeDelimiters xml2js
     reXML2JSReport_test reXML2JSReport_remove run transformReference).

Lemma forEach_directive file found st :
  foldl (λ acc directive,
           match present (dependsOn directive) with
           | Some target => run file (transformReference target file) acc
           | None => acc
           end) st found
  = collect builtinModules dirname resolveSync transformReference file
      (targets found) st.
Proof.
  unfold collect, targets. revert st.
  induction found as [|d found IH]; intros st; [done|].
  cbn [foldl]. rewrite IH.
  change (omap ?f (d :: found))
    with (match f d with
          | Some y => y :: omap f found
          | None => omap f found
          end).
  by destruct (present (dependsOn d)).
Qed.

(** X29. [process] of the directive processor throws what
    [getDirectives] throws, before any reference is resolved.  When the
    scan succeeds it does not throw: it reports exactly the paths the
    resolver returns for the transformed [depends-on] values, directives
    without a value or with the empty value contribute nothing, and the
    values that cannot be resolved go to the missing set of the file. *)
Theorem directive_process_characterized
    (file : Path) (contents : string) (w : World) :
  match getDirectives' contents file with
  | Failed e => process' file contents w = inl e
  | Finished found =>
      ∃ imp w',
        process' file contents w = inr (imp, w')
        ∧ collected builtinModules dirname resolveSync transformReference
            file (targets found) w imp w'
  end.
Proof.
  unfold Directive.process.
  destruct (getDirectives' contents file) as [found|e]; [|done].
  rewrite forEach_directive.
  destruct (collect_spec builtinModules dirname resolveSync
              transformReference file (targets found) (JSSet.empty, w))
    as (Hnd & Himp & Hmiss & Hother).
  destruct (collect _ _ _ _ file (targets found) (JSSet.empty, w))
    as [imp w'].
  cbn [fst snd] in *. exists imp, w'. split; [done|].
  unfold collected. split_and!; [apply Hnd; constructor| |done|done].
  intros p. rewrite Himp. split; [|auto].
  intros [Hp|?]; [by inversion Hp|done].
Qed.
End DirectiveProcessFacts.

(** * Queries on a gathered map *)

Section GatheredQueries.
Import Gather DirectedGraph DependencyTree.
Variable rootDirs : list Path.
Variable ignoreGlobs : list string.
Variable fileProcessors : list FileProcessor.
Variable fg_sync : string → Path → list string → list Path.
Variable readFileSync : Path → option string.

(** X30. The map [gather] returns always meets the condition under
    which [getReferences] is exact: on it, the references of a list of
    files are the files, other than those of the list, from which a file
    of the list can be reached, and every such file is a discovered
    file. *)
Theorem gather_then_getReferences
    (resolved : FileToDeps) (w : World) (files : list Path) (x : Path) :
  gather rootDirs ignoreGlobs fileProcessors fg_sync readFileSync
  = Ok (resolved, w) →
  (x ∈ getReferences resolved files
   ↔ (∃ e, e ∈ files ∧ reachable (DirectedGraph.mk resolved) x e)
     ∧ x ∉ files)
  ∧ (x ∈ getReferences resolved files →
     x ∈ getFiles rootDirs ignoreGlobs fileProcessors fg_sync).
Proof.
  intros Hg.
  assert (unique_keys resolved) as Hu.
  { unfold gather in Hg. apply gatherLoop_keys in Hg.
    unfold unique_keys. rewrite Hg. apply NoDup_foldl_add. constructor. }
  pose proof (elem_of_getReferences resolved files x Hu) as Href.
  split; [done|]. intros [(e & He & Hreach) Hx]%Href.
  apply rtc_inv in Hreach as [->|(y & Hedge & _)]; [done|].
  destruct Hedge as (outs & Hget & _). simpl in Hget.
  assert (x ∈ JSMap.keys resolved) as Hkey by by eapply get_Some_key.
  unfold gather in Hg. apply gatherLoop_keys in Hg. rewrite Hg in Hkey.
  apply elem_of_foldl_add in Hkey as [Hkey|?]; [by inversion Hkey|done].
Qed.
End GatheredQueries.

(** ** Further worked instances *)

Section MoreInstances.
Import Cascade Gather.

Lemma resolveAndCollect_resolved_or_missing_witness :
  "/fixtures/a/a.tsx"
  ∈ (resolveAndCollect sample_builtins sample_dirname sample_resolveSync
       "/fixtures/a/index.ts" (Single "./a") (JSSet.empty, empty_world)).1.
Proof.
  destruct (resolveAndCollect_resolved_or_missing
              sample_builtins sample_dirname sample_resolveSync
              "/fixtures/a/index.ts" "./a" JSSet.empty empty_world)
    as [(p & Hres & _ & _ & Hin & _)|(Hfail & _)].
  - vm_compute. reflexivity.
  - intros Hempty. inversion Hempty.
  - injection Hres as <-. exact Hin.
  - vm_compute in Hfail. inversion Hfail.
Defined.

(** The resolver some time later: what it did not find is still not
    found, and the rest is gone. *)
Definition later_resolveSync (dir : Path) (request : string)
    : ResolveOutcome :=
  if decide (request = "./missing-dep") then Returns None
  else Throws "ENOENT".

Lemma resolveAndCollect_repeated_same_answer_witness :
  missing
    (resolveAndCollect sample_builtins sample_dirname later_resolveSync
       "/fixtures/a/index.ts" (Single "./missing-dep")
       (resolveAndCollect sample_builtins sample_dirname sample_resolveSync
          "/fixtures/a/index.ts" (Single "./missing-dep")
          (JSSet.empty, empty_world))).2
  = [("/fixtures/a/index.ts", ["./missing-dep"])].
Proof.
  destruct (resolveAndCollect_repeated_same_answer
              sample_builtins sample_dirname sample_resolveSync
              later_resolveSync "/fixtures/a/index.ts" "./missing-dep"
              (JSSet.empty, empty_world)) as [_ Hmissing].
  - vm_compute. reflexivity.
  - etransitivity; [exact Hmissing|]. vm_compute. reflexivity.
Defined.

(** When the second answer differs, the second call does change the
    collections: a module that appears between the two calls ends up
    both missing and imported. *)
Definition found_resolveSync (dir : Path) (request : string)
    : ResolveOutcome :=
  Returns (Some "/fixtures/a/missing-dep.ts").

Example resolveAndCollect_changed_answer :
  let once :=
    resolveAndCollect sample_builtins sample_dirname sample_resolveSync
      "/fixtures/a/index.ts" (Single "./missing-dep")
      (JSSet.empty, empty_world) in
  let twice :=
    resolveAndCollect sample_builtins sample_dirname found_resolveSync
      "/fixtures/a/index.ts" (Single "./missing-dep") once in
  once.1 = []
  ∧ twice.1 = ["/fixtures/a/missing-dep.ts"]
  ∧ missing twice.2 = [("/fixtures/a/index.ts", ["./missing-dep"])].
Proof. vm_compute. done. Qed.

Lemma gather_keys_in_discovery_order_witness :
  JSMap.keys tree_resolved = ["/src/a.js"; "/src/b.js"].
Proof.
  destruct (gather_keys_in_discovery_order
              ["/src"] ["**/node_modules/**"] tree_processors
              tree_fg_sync tree_readFileSync tree_resolved tree_world)
    as [Hkeys _].
  - vm_compute. reflexivity.
  - rewrite Hkeys. vm_compute. reflexivity.
Defined.

Lemma gather_success_requires_processor_witness :
  is_Some (tree_readFileSync "/src/a.js")
  ∧ ∃ p, p ∈ tree_processors ∧ matches p "/src/a.js" = true.
Proof.
  apply (gather_success_requires_processor
           ["/src"] ["**/node_modules/**"] tree_processors
           tree_fg_sync tree_readFileSync tree_resolved tree_world).
  - vm_compute. reflexivity.
  - vm_compute. left.
Defined.

Lemma gather_sets_without_repetition_witness :
  NoDup ["/src/b.js"].
Proof.
  apply (gather_sets_without_repetition
           ["/src"] ["**/node_modules/**"] tree_processors
           tree_fg_sync tree_readFileSync tree_resolved tree_world)
    with (file := "/src/a.js").
  - vm_compute. reflexivity.
  - vm_compute. reflexivity.
Defined.

(** A style sheet in a tree that has the JavaScript processor only. *)
Definition sheet_readFileSync (file : Path) : option string :=
  Some "body { margin: 0 }".

Lemma getImportedFiles_without_processor_fails_witness :
  getImportedFiles tree_processors sheet_readFileSync "/src/main.css"
    empty_world ["/src/main.css"]
  = Raised (NoProcessorMatches "/src/main.css").
Proof.
  apply (getImportedFiles_without_processor_fails
           tree_processors sheet_readFileSync "/src/main.css"
           "body { margin: 0 }").
  - reflexivity.
  - intros p Hp. apply list_elem_of_singleton in Hp. rewrite Hp.
    vm_compute. reflexivity.
Defined.

Lemma javascript_process_characterized_witness :
  ∃ imp w',
    process (JavascriptFileProcessor tree_extname tree_extractJsImports
               (λ reference _, Single reference)
               (resolveAndCollect sample_builtins (λ _, "/src")
                  tree_resolveSync))
      "/src/a.js" "import './b';" ["/src/a.js"; "/src/b.js"] empty_world
    = Ok (imp, w')
    ∧ NoDup imp.
Proof.
  destruct (javascript_process_characterized
              sample_builtins (λ _, "/src") tree_resolveSync
              (λ reference _, Single reference)
              tree_extname tree_extractJsImports
              "/src/a.js" "import './b';" ["/src/a.js"; "/src/b.js"]
              empty_world ["./b"])
    as (imp & w' & Hprocess & Hnd & _).
  - vm_compute. reflexivity.
  - exists imp, w'. split; [exact Hprocess|exact Hnd].
Defined.

(** A test file with three imports: a file of the project, a library,
    and a module neither resolver finds; its snapshot exists. *)
Definition spec_preProcessFile (contents : string) : list string :=
  ["./a"; "lodash"; "./gone"].

Definition spec_getEntryPointImport (file : Path) : Result string :=
  Raised (ProcessorFailed "Cannot find module").

Definition spec_transformReference (reference : string) (file : Path)
    : Reference :=
  if decide (reference = "./all/*") then Several ["./a"]
  else Single reference.

Definition spec_resolveModuleName (moduleName : string) (file : Path)
    : option ResolvedModuleWithFailedLookupLocations :=
  if decide (moduleName = "./a")
  then Some (mkTsResolve
               (Some (mkResolvedModule "/fixtures/a/a.tsx" false)))
  else if decide (moduleName = "lodash")
  then Some (mkTsResolve
               (Some (mkResolvedModule
                        "/node_modules/lodash/index.d.ts" true)))
  else Some (mkTsResolve None).

Definition spec_path_join (parts : list string) : Path :=
  String.concat "/" parts.

Definition spec_process :=
  TypeScriptFileProcessor.process spec_preProcessFile
    spec_getEntryPointImport spec_transformReference spec_resolveModuleName
    (resolveAndCollect sample_builtins sample_dirname sample_resolveSync)
    sample_dirname (λ _, "index.tests.ts") spec_path_join (λ _, true).

Example spec_process_result :
  ∃ w',
    spec_process "/fixtures/a/index.tests.ts" "" [] empty_world
    = Ok (["/fixtures/a/a.tsx";
           "/fixtures/a/__snapshots__/index.tests.ts.snap"], w')
    ∧ missing w' = [("/fixtures/a/index.tests.ts", ["./gone"])]
    ∧ resolverCalls w' = [("/fixtures/a", "./gone")].
Proof. eexists. vm_compute. done. Qed.

Lemma typescript_process_characterized_witness :
  NoDup ["/fixtures/a/a.tsx";
         "/fixtures/a/__snapshots__/index.tests.ts.snap"].
Proof.
  destruct spec_process_result as (w' & Hprocess & _).
  destruct (typescript_process_characterized
              spec_preProcessFile spec_getEntryPointImport
              spec_transformReference spec_resolveModuleName
              sample_dirname (λ _, "index.tests.ts") spec_path_join
              (λ _, true) sample_builtins sample_dirname sample_resolveSync
              "/fixtures/a/index.tests.ts" "" [] empty_world _ _ Hprocess)
    as (filesList & _ & Hnd & _).
  exact Hnd.
Defined.

Lemma typescript_rejects_glob_import_witness :
  TypeScriptFileProcessor.resolveImports spec_transformReference
    spec_resolveModuleName
    (resolveAndCollect sample_builtins sample_dirname sample_resolveSync)
    "/fixtures/a/index.ts" (["./a"] ++ "./all/*" :: ["lodash"])
    (JSSet.empty, empty_world)
  = Raised (TypeScriptFileProcessor.globImportError
              "/fixtures/a/index.ts" "./all/*").
Proof.
  apply (typescript_rejects_glob_import
           spec_transformReference spec_resolveModuleName
           sample_builtins sample_dirname sample_resolveSync
           "/fixtures/a/index.ts" ["./a"] ["lodash"] "./all/*" ["./a"]
           (JSSet.empty, empty_world)
           (["/fixtures/a/a.tsx"], empty_world)).
  - vm_compute. reflexivity.
  - vm_compute. reflexivity.
Defined.

Lemma getDirectives_returns_valid_directives_witness :
  Forall (λ d,
            only_dependsOn d
            ∧ ∃ st m element pre post,
                reaches TSDirectiveProcessor.reNext_exec
                  TSDirectiveProcessor.removeDelimiters sample_xml2js
                  (λ _, true) (λ xmlMessage, xmlMessage)
                  valid_content "/src/index.ts" st
                ∧ TSDirectiveProcessor.reNext_exec
                    (drop_str (Directive.lastIndex st) valid_content)
                  = Some m
                ∧ Directive.body m = Some element
                ∧ element ≠ ""
                ∧ valid_content
                  = take_str (Directive.lastIndex st) valid_content
                    +:+ pre +:+ element +:+ post
                ∧ sample_xml2js
                    (TSDirectiveProcessor.removeDelimiters element)
                  = Directive.XmlParsed (Directive.Object d))
         [[("dependsOn", "./dep1.ts")]; [("dependsOn", "./dep2.js")]].
Proof.
  apply (getDirectives_returns_valid_directives
           TSDirectiveProcessor.reNext_exec
           TSDirectiveProcessor.reNext_consumes
           TSDirectiveProcessor.removeDelimiters
           sample_xml2js (λ _, true) (λ xmlMessage, xmlMessage)
           valid_content "/src/index.ts").
  - exact reNext_body_within.
  - vm_compute. reflexivity.
Defined.

(** A file with Windows line ends: the directive on its second line is
    not seen. *)
Lemma getDirectives_stops_silently_witness :
  sample_getDirectives
    ("x;" +:+ String CR (line "" +:+ "/// <dependency-tree example='demo' />"))
    "/src/index.ts"
  = Directive.Finished [].
Proof.
  apply (getDirectives_stops_silently
           sample_xml2js (λ _, true) (λ xmlMessage, xmlMessage)
           "x;" CR (line "" +:+ "/// <dependency-tree example='demo' />")
           "/src/index.ts").
  - reflexivity.
  - intros p. do 3 (destruct p as [|p]; [reflexivity|]). reflexivity.
  - left. reflexivity.
Defined.

Lemma directive_process_characterized_witness :
  ∃ imp w',
    Directive.process TSDirectiveProcessor.reNext_exec
      TSDirectiveProcessor.reNext_consumes
      TSDirectiveProcessor.removeDelimiters sample_xml2js (λ _, true)
      (λ xmlMessage, xmlMessage)
      (resolveAndCollect sample_builtins sample_dirname sample_resolveSync)
      (λ reference _, Single reference)
      "/src/index.ts" valid_content empty_world
    = inr (imp, w')
    ∧ NoDup imp.
Proof.
  pose proof (directive_process_characterized
                TSDirectiveProcessor.reNext_exec
                TSDirectiveProcessor.reNext_consumes
                TSDirectiveProcessor.removeDelimiters sample_xml2js
                (λ _, true) (λ xmlMessage, xmlMessage)
                sample_builtins sample_dirname sample_resolveSync
                (λ reference _, Single reference)
                "/src/index.ts" valid_content empty_world) as Hprocess.
  change (Directive.getDirectives _ _ _ _ _ _ valid_content "/src/index.ts")
    with (sample_getDirectives valid_content "/src/index.ts") in Hprocess.
  rewrite sample_valid_directives in Hprocess.
  destruct Hprocess as (imp & w' & Hp & Hnd & _).
  exists imp, w'. split; [exact Hp|exact Hnd].
Defined.

Lemma gather_then_getReferences_witness :
  "/src/a.js" ∈ DependencyTree.getReferences tree_resolved ["/src/b.js"]
  ↔ (∃ e, e ∈ ["/src/b.js"]
          ∧ DirectedGraph.reachable (DirectedGraph.mk tree_resolved)
              "/src/a.js" e)
    ∧ "/src/a.js" ∉ ["/src/b.js"].
Proof.
  apply (gather_then_getReferences
           ["/src"] ["**/node_modules/**"] tree_processors
           tree_fg_sync tree_readFileSync tree_resolved tree_world
           ["/src/b.js"] "/src/a.js").
  vm_compute. reflexivity.
Defined.
End MoreInstances.
